(** * CPU scheduling simulator: a shallow embedding of [os.py]

    The four scheduling functions of [os.py] ([fcfs], [sjf],
    [priority_scheduling], [round_robin]) are embedded as Rocq functions.
    Python dictionaries keyed by the process id are finite maps; Python
    lists are lists; the [while] loops are run with an explicit iteration
    budget.

    [os.py] runs on process records whose numeric fields are Python [int]s
    or [float]s.  The first embedding is the one for [int] fields: Python's
    [int] is unbounded and its arithmetic exact, so the fields are in [Z]
    and the dictionaries are [gmap string Z].  The module [Numeric] embeds
    the same functions for fields that are [int] or [float], with binary64
    rounding.  On [int] fields the two embeddings agree
    ([numeric_fcfs_int], [numeric_sjf_int], [numeric_priority_scheduling_int],
    [numeric_round_robin_int]); the second one shows what does not carry
    over from [int] to [float] fields. *)

From Stdlib Require Import ZArith Lia Floats.
From stdpp Require Import base list sorting gmap strings pretty.

Open Scope Z_scope.

(** A decimal [float] literal stands for the nearest binary64 number, as it
    does in Python. *)
Set Warnings "-inexact-float".

(** ** Data model *)

(** One entry of the process list: the dictionary
    [{"id": .., "burst": .., "arrival": .., "priority": ..}] with [int]
    values for the burst, the arrival and the priority. *)
Record process := Process {
  id : string;
  arrival : Z;
  burst : Z;
  priority : Z
}.

Global Instance process_eq_dec : EqDecision process.
Proof. solve_decision. Defined.

(** An element of the [gantt] list: the tuple [(id, start, finish)]. *)
Definition interval : Type := string * Z * Z.

Definition iv_id (iv : interval) : string := iv.1.1.
Definition iv_start (iv : interval) : Z := iv.1.2.
Definition iv_finish (iv : interval) : Z := iv.2.

(** The returned tuple [gantt, waiting, turnaround]. *)
Definition result : Type := list interval * gmap string Z * gmap string Z.

(** What a call can do: return, raise [KeyError] on a dictionary lookup, or
    still be running when the iteration budget is used up. *)
Inductive outcome (A : Type) : Type :=
  | Done (a : A)
  | KeyError (k : string)
  | OutOfFuel.
Arguments Done {A} a.
Arguments KeyError {A} k.
Arguments OutOfFuel {A}.

Definition bind {A B} (o : outcome A) (f : A → outcome B) : outcome B :=
  match o with
  | Done a => f a
  | KeyError k => KeyError k
  | OutOfFuel => OutOfFuel
  end.

Notation "x ←! o ; k" := (bind o (λ x, k))
  (at level 20, o at level 100, k at level 200, right associativity,
   format "x  ←!  o ;  '/' k").

(** [d[k]] on a Python dictionary. *)
Definition getitem (d : gmap string Z) (k : string) : outcome Z :=
  match d !! k with
  | Some v => Done v
  | None => KeyError k
  end.

(** ** [sorted(xs, key=...)] and [xs.sort(key=...)]

    Python's sort is stable; a stable sort has one possible result, which
    the insertion sort below computes: an element is placed in front of the
    first element whose key is not smaller than its own. *)
Section sorted.
Context {A : Type} (key : A → Z).

Fixpoint insert_by (x : A) (l : list A) : list A :=
  match l with
  | [] => [x]
  | y :: l' => if bool_decide (key x ≤ key y) then x :: l else y :: insert_by x l'
  end.

Definition sorted (l : list A) : list A := foldr insert_by [] l.
End sorted.

(** ** The admission loop

    [while i < len(processes) and processes[i]["arrival"] <= time:
         queue.append(processes[i]); i += 1]
    run on the not yet admitted suffix [pending = processes[i:]]. *)
Fixpoint admission (time : Z) (pending : list process) (i : nat)
    (queue : list process) : nat * list process :=
  match pending with
  | [] => (i, queue)
  | p :: pending' =>
      if bool_decide (arrival p ≤ time)
      then admission time pending' (S i) (queue ++ [p])
      else (i, queue)
  end.

(** ** [while cond: body] with an iteration budget *)
Fixpoint while {S : Type} (cond : S → bool) (body : S → outcome S)
    (fuel : nat) (s : S) : outcome S :=
  if cond s then
    match fuel with
    | O => OutOfFuel
    | Datatypes.S fuel' => s' ←! body s; while cond body fuel' s'
    end
  else Done s.

(** The state in which the [k]-th iteration starts, if the loop gets that
    far ([k = 0] is the state before the loop). *)
Fixpoint loop_state {S : Type} (cond : S → bool) (body : S → outcome S)
    (k : nat) (s : S) : option S :=
  match k with
  | O => Some s
  | Datatypes.S k' =>
      if cond s then
        match body s with
        | Done s' => loop_state cond body k' s'
        | _ => None
        end
      else None
  end.

(** ** [fcfs] *)

Record fcfs_state := FcfsState {
  f_time : Z;
  f_gantt : list interval;
  f_waiting : gmap string Z;
  f_turnaround : gmap string Z
}.

(** The body of [for p in processes]. *)
Definition fcfs_body (st : fcfs_state) (p : process) : fcfs_state :=
  let time := if bool_decide (f_time st < arrival p) then arrival p else f_time st in
  let start := time in
  let finish := start + burst p in
  {| f_time := finish;
     f_gantt := f_gantt st ++ [(id p, start, finish)];
     f_waiting := <[id p := start - arrival p]> (f_waiting st);
     f_turnaround := <[id p := finish - arrival p]> (f_turnaround st) |}.

Definition fcfs_init : fcfs_state :=
  {| f_time := 0; f_gantt := []; f_waiting := ∅; f_turnaround := ∅ |}.

Definition fcfs (processes : list process) : result :=
  let processes := sorted arrival processes in
  let st := foldl fcfs_body fcfs_init processes in
  (f_gantt st, f_waiting st, f_turnaround st).

(** ** [sjf] and [priority_scheduling]

    The two functions are the same text up to the key of [ready.sort]:
    ["burst"] in [sjf], ["priority"] in [priority_scheduling]. *)

Record np_state := NpState {
  n_i : nat;
  n_ready : list process;
  n_time : Z;
  n_gantt : list interval;
  n_waiting : gmap string Z;
  n_turnaround : gmap string Z
}.

Definition np_init : np_state :=
  {| n_i := 0; n_ready := []; n_time := 0; n_gantt := [];
     n_waiting := ∅; n_turnaround := ∅ |}.

(** [i < len(processes) or ready] *)
Definition np_cond (processes : list process) (st : np_state) : bool :=
  bool_decide (n_i st < length processes)%nat || negb (bool_decide (n_ready st = [])).

(** One iteration of the outer loop.  [ready.sort] keeps an empty list
    empty, so [if ready:] is the match on the sorted list, and
    [ready.pop(0)] is its head. *)
Definition np_body (key : process → Z) (processes : list process)
    (st : np_state) : np_state :=
  let '(i, ready) := admission (n_time st) (drop (n_i st) processes) (n_i st) (n_ready st) in
  match sorted key ready with
  | p :: ready' =>
      let start := n_time st in
      let finish := n_time st + burst p in
      {| n_i := i; n_ready := ready'; n_time := finish;
         n_gantt := n_gantt st ++ [(id p, start, finish)];
         n_waiting := <[id p := start - arrival p]> (n_waiting st);
         n_turnaround := <[id p := finish - arrival p]> (n_turnaround st) |}
  | [] =>
      {| n_i := i; n_ready := ready; n_time := n_time st + 1;
         n_gantt := n_gantt st; n_waiting := n_waiting st;
         n_turnaround := n_turnaround st |}
  end.

Definition np_loop (key : process → Z) (processes : list process) :
    nat → np_state → outcome np_state :=
  while (np_cond processes) (λ st, Done (np_body key processes st)).

Definition np_schedule (key : process → Z) (fuel : nat)
    (processes : list process) : outcome result :=
  let processes := sorted arrival processes in
  st ←! np_loop key processes fuel np_init;
  Done (n_gantt st, n_waiting st, n_turnaround st).

Definition sjf : nat → list process → outcome result := np_schedule burst.

Definition priority_scheduling : nat → list process → outcome result :=
  np_schedule priority.

(** ** [round_robin] *)

Record rr_state := RrState {
  r_i : nat;
  r_queue : list process;
  r_time : Z;
  r_remaining : gmap string Z;
  r_finish_time : gmap string Z;
  r_gantt : list interval
}.

(** [{p["id"]: p["burst"] for p in processes}]: a later entry with the same
    id overwrites an earlier one. *)
Definition remaining_init (processes : list process) : gmap string Z :=
  foldl (λ m p, <[id p := burst p]> m) ∅ processes.

Definition rr_init (processes : list process) : rr_state :=
  {| r_i := 0; r_queue := []; r_time := 0;
     r_remaining := remaining_init processes;
     r_finish_time := ∅; r_gantt := [] |}.

(** [i < len(processes) or queue] *)
Definition rr_cond (processes : list process) (st : rr_state) : bool :=
  bool_decide (r_i st < length processes)%nat || negb (bool_decide (r_queue st = [])).

(** One iteration of the outer loop.  [remaining[p["id"]]] is read back
    right after it is written, so the test [remaining[p["id"]] > 0] is on
    the value just stored. *)
Definition rr_body (quantum : Z) (processes : list process)
    (st : rr_state) : outcome rr_state :=
  let '(i, queue) := admission (r_time st) (drop (r_i st) processes) (r_i st) (r_queue st) in
  match queue with
  | p :: queue =>
      rem ←! getitem (r_remaining st) (id p);
      let exec_time := Z.min quantum rem in
      let start := r_time st in
      let finish := r_time st + exec_time in
      let gantt := r_gantt st ++ [(id p, start, finish)] in
      let remaining := <[id p := rem - exec_time]> (r_remaining st) in
      let time := finish in
      if bool_decide (rem - exec_time > 0) then
        let '(i, queue) := admission time (drop i processes) i queue in
        Done {| r_i := i; r_queue := queue ++ [p]; r_time := time;
                r_remaining := remaining;
                r_finish_time := r_finish_time st; r_gantt := gantt |}
      else
        Done {| r_i := i; r_queue := queue; r_time := time;
                r_remaining := remaining;
                r_finish_time := <[id p := time]> (r_finish_time st);
                r_gantt := gantt |}
  | [] =>
      Done {| r_i := i; r_queue := queue; r_time := r_time st + 1;
              r_remaining := r_remaining st;
              r_finish_time := r_finish_time st; r_gantt := r_gantt st |}
  end.

Definition rr_loop (quantum : Z) (processes : list process) :
    nat → rr_state → outcome rr_state :=
  while (rr_cond processes) (rr_body quantum processes).

(** The body of the closing [for p in processes]: the turnaround entry is
    written and read back, so [waiting] is computed from the value stored. *)
Definition rr_metrics_body (finish_time : gmap string Z)
    (acc : outcome (gmap string Z * gmap string Z)) (p : process) :
    outcome (gmap string Z * gmap string Z) :=
  wt ←! acc;
  ft ←! getitem finish_time (id p);
  let turnaround := <[id p := ft - arrival p]> wt.2 in
  let waiting := <[id p := ft - arrival p - burst p]> wt.1 in
  Done (waiting, turnaround).

Definition rr_metrics (finish_time : gmap string Z) (processes : list process) :
    outcome (gmap string Z * gmap string Z) :=
  foldl (rr_metrics_body finish_time) (Done (∅, ∅)) processes.

Definition round_robin (fuel : nat) (processes : list process) (quantum : Z) :
    outcome result :=
  let processes := sorted arrival processes in
  st ←! rr_loop quantum processes fuel (rr_init processes);
  wt ←! rr_metrics (r_finish_time st) processes;
  Done (r_gantt st, wt.1, wt.2).

(** ** The example process list of the user interface *)
Definition example : list process :=
  [ Process "P1" 0 5 1; Process "P2" 1 3 2; Process "P3" 2 8 3 ].

(** ** [show_results]: the table and the two averages

    The table is built from the ids and the values of [waiting] and the
    values of [turnaround]; [pd.DataFrame] raises [ValueError] when the
    columns do not have the same length.  Then
    [sum(d.values())/len(d)] is computed for [waiting] and after it for
    [turnaround].  With integer values it divides two integers: it raises
    [ZeroDivisionError] when the length is 0, and its quotient is the
    float nearest to the exact quotient, [OverflowError] when that is
    beyond the largest float.  The model keeps the two integers that are
    divided and not the float, which is only shown, with two decimals.
    The drawing of the chart and of the table is not modelled. *)
Inductive averages : Type :=
  | Averages (waiting_total : Z) (waiting_count : nat)
             (turnaround_total : Z) (turnaround_count : nat)
  | ValueError
  | ZeroDivisionError
  | OverflowError.

(** [sum(d.values())] *)
Definition sum_values (d : gmap string Z) : Z :=
  map_fold (λ _ v acc, v + acc) 0 d.

(** The quotient [total / count] rounds to a float beyond the largest one,
    [2^1024 - 2^971]: it is at least halfway from it to [2^1024]. *)
Definition division_overflows (total : Z) (count : nat) : bool :=
  bool_decide ((2 ^ 1024 - 2 ^ 970) * Z.of_nat count ≤ Z.abs total).

Definition show_results (gantt : list interval)
    (waiting turnaround : gmap string Z) : averages :=
  if decide (size waiting = size turnaround) then
    if decide (size waiting = 0%nat) then ZeroDivisionError
    else if division_overflows (sum_values waiting) (size waiting)
    then OverflowError
    else if decide (size turnaround = 0%nat) then ZeroDivisionError
    else if division_overflows (sum_values turnaround) (size turnaround)
    then OverflowError
    else Averages (sum_values waiting) (size waiting)
                  (sum_values turnaround) (size turnaround)
  else ValueError.

(** ** The "Add Process" button

    [new_id = f"P{len(processes)+1}"], and the new entry
    [{"id": new_id, "burst": 1, "arrival": 0, "priority": 1}] is appended. *)
Definition add_process (processes : list process) : list process :=
  let new_id := "P" +:+ pretty (length processes + 1)%nat in
  processes ++ [ {| id := new_id; burst := 1; arrival := 0; priority := 1 |} ].

(** * The functions on [int] and [float] fields

    [os.py] does not fix the type of the numbers it is given: the same text
    runs on Python [int]s and [float]s.  The embedding above is the one for
    [int] fields, whose arithmetic is exact.  The module below embeds the
    same functions for fields that are [int] or [float], with Python's
    arithmetic on them: two [int]s are added, subtracted and compared
    exactly; an [int] met by a [float] in a sum or a difference is first
    converted to the nearest [float] ([OverflowError] beyond the largest
    one) and the operation is the binary64 one, rounded to nearest even;
    an [int] and a [float] are compared by their exact values. *)
Module Numeric.

Inductive num : Type :=
  | Int (z : Z)
  | Float (f : float).

(** What a call can do: return, raise [KeyError] or [OverflowError], or
    still be running when the iteration budget is used up.  [Unordered]
    stands for a sort of two or more elements with a NaN key: the order
    [sorted] and [list.sort] leave then depends on the comparisons their
    merge strategy happens to make, which is not modelled. *)
Inductive outcome (A : Type) : Type :=
  | Done (a : A)
  | KeyError (k : string)
  | OverflowError
  | Unordered
  | OutOfFuel.
Arguments Done {A} a.
Arguments KeyError {A} k.
Arguments OverflowError {A}.
Arguments Unordered {A}.
Arguments OutOfFuel {A}.

Definition bind {A B} (o : outcome A) (f : A → outcome B) : outcome B :=
  match o with
  | Done a => f a
  | KeyError k => KeyError k
  | OverflowError => OverflowError
  | Unordered => Unordered
  | OutOfFuel => OutOfFuel
  end.

Notation "x ←? o ; k" := (bind o (λ x, k))
  (at level 20, o at level 100, k at level 200, right associativity,
   format "x  ←?  o ;  '/' k").

(** ** Python's arithmetic on [int] and [float] *)

(** [float(z)]: the binary64 number nearest to [z], ties to even. *)
Definition float_of_int (z : Z) : outcome float :=
  match SpecFloat.binary_normalize 53 1024 z 0 false with
  | S754_infinity _ => OverflowError
  | f => Done (SF2Prim f)
  end.

(** The exact comparison of an [int] with a [float]; [None] for NaN. *)
Definition compare_int_float (z : Z) (f : float) : option comparison :=
  match Prim2SF f with
  | S754_nan => None
  | S754_infinity s => Some (if s then Gt else Lt)
  | S754_zero _ => Some (z ?= 0)
  | S754_finite s m e =>
      let v := if s then Z.neg m else Z.pos m in
      Some (if bool_decide (0 ≤ e) then z ?= v * 2 ^ e else z * 2 ^ (- e) ?= v)
  end.

(** [a + b] *)
Definition add (a b : num) : outcome num :=
  match a, b with
  | Int x, Int y => Done (Int (x + y))
  | Float x, Float y => Done (Float (PrimFloat.add x y))
  | Int x, Float y => x' ←? float_of_int x; Done (Float (PrimFloat.add x' y))
  | Float x, Int y => y' ←? float_of_int y; Done (Float (PrimFloat.add x y'))
  end.

(** [a - b] *)
Definition sub (a b : num) : outcome num :=
  match a, b with
  | Int x, Int y => Done (Int (x - y))
  | Float x, Float y => Done (Float (PrimFloat.sub x y))
  | Int x, Float y => x' ←? float_of_int x; Done (Float (PrimFloat.sub x' y))
  | Float x, Int y => y' ←? float_of_int y; Done (Float (PrimFloat.sub x y'))
  end.

(** [a < b] *)
Definition lt (a b : num) : bool :=
  match a, b with
  | Int x, Int y => bool_decide (x < y)
  | Float x, Float y => PrimFloat.ltb x y
  | Int x, Float y =>
      match compare_int_float x y with Some Lt => true | _ => false end
  | Float x, Int y =>
      match compare_int_float y x with Some Gt => true | _ => false end
  end.

(** [a <= b] *)
Definition le (a b : num) : bool :=
  match a, b with
  | Int x, Int y => bool_decide (x ≤ y)
  | Float x, Float y => PrimFloat.leb x y
  | Int x, Float y =>
      match compare_int_float x y with Some Lt | Some Eq => true | _ => false end
  | Float x, Int y =>
      match compare_int_float y x with Some Gt | Some Eq => true | _ => false end
  end.

(** [min(a, b)]: the first argument unless the second is smaller. *)
Definition min (a b : num) : num := if lt b a then b else a.

Definition is_nan (a : num) : bool :=
  match a with
  | Int _ => false
  | Float f => PrimFloat.is_nan f
  end.

(** ** Data model *)

Record process := Process {
  id : string;
  arrival : num;
  burst : num;
  priority : num
}.

Definition interval : Type := string * num * num.

Definition iv_id (iv : interval) : string := iv.1.1.
Definition iv_start (iv : interval) : num := iv.1.2.
Definition iv_finish (iv : interval) : num := iv.2.

Definition result : Type := list interval * gmap string num * gmap string num.

(** [d[k]] on a Python dictionary. *)
Definition getitem (d : gmap string num) (k : string) : outcome num :=
  match d !! k with
  | Some v => Done v
  | None => KeyError k
  end.

(** ** [sorted(xs, key=...)] and [xs.sort(key=...)]

    The sort compares keys with [<] only.  Without a NaN key, [<] orders
    the keys and the stable sort has one possible result, which the
    insertion sort computes: an element is placed in front of the first
    element whose key is not smaller than its own.  A list of fewer than
    two elements is returned as it is, without a comparison. *)
Section sorted.
Context {A : Type} (key : A → num).

Fixpoint insert_by (x : A) (l : list A) : list A :=
  match l with
  | [] => [x]
  | y :: l' => if lt (key y) (key x) then y :: insert_by x l' else x :: l
  end.

Definition sorted (l : list A) : outcome (list A) :=
  if bool_decide (2 ≤ length l)%nat && existsb (λ x, is_nan (key x)) l
  then Unordered
  else Done (foldr insert_by [] l).
End sorted.

(** ** The admission loop

    [while i < len(processes) and processes[i]["arrival"] <= time:
         queue.append(processes[i]); i += 1] *)
Fixpoint admission (time : num) (pending : list process) (i : nat)
    (queue : list process) : nat * list process :=
  match pending with
  | [] => (i, queue)
  | p :: pending' =>
      if le (arrival p) time
      then admission time pending' (S i) (queue ++ [p])
      else (i, queue)
  end.

(** ** [while cond: body] with an iteration budget *)
Fixpoint while {S : Type} (cond : S → bool) (body : S → outcome S)
    (fuel : nat) (s : S) : outcome S :=
  if cond s then
    match fuel with
    | O => OutOfFuel
    | Datatypes.S fuel' => s' ←? body s; while cond body fuel' s'
    end
  else Done s.

(** The truth value of a list: [True] unless it is empty. *)
Definition nonempty {A} (l : list A) : bool :=
  match l with
  | [] => false
  | _ :: _ => true
  end.

(** ** [fcfs] *)

Record fcfs_state := FcfsState {
  f_time : num;
  f_gantt : list interval;
  f_waiting : gmap string num;
  f_turnaround : gmap string num
}.

(** The body of [for p in processes]. *)
Definition fcfs_body (acc : outcome fcfs_state) (p : process) :
    outcome fcfs_state :=
  st ←? acc;
  let time := if lt (f_time st) (arrival p) then arrival p else f_time st in
  let start := time in
  finish ←? add start (burst p);
  w ←? sub start (arrival p);
  t ←? sub finish (arrival p);
  Done {| f_time := finish;
          f_gantt := f_gantt st ++ [(id p, start, finish)];
          f_waiting := <[id p := w]> (f_waiting st);
          f_turnaround := <[id p := t]> (f_turnaround st) |}.

(** [time = 0] *)
Definition fcfs_init : fcfs_state :=
  {| f_time := Int 0; f_gantt := []; f_waiting := ∅; f_turnaround := ∅ |}.

Definition fcfs (processes : list process) : outcome result :=
  processes ←? sorted arrival processes;
  st ←? foldl fcfs_body (Done fcfs_init) processes;
  Done (f_gantt st, f_waiting st, f_turnaround st).

(** ** [sjf] and [priority_scheduling] *)

Record np_state := NpState {
  n_i : nat;
  n_ready : list process;
  n_time : num;
  n_gantt : list interval;
  n_waiting : gmap string num;
  n_turnaround : gmap string num
}.

Definition np_init : np_state :=
  {| n_i := 0; n_ready := []; n_time := Int 0; n_gantt := [];
     n_waiting := ∅; n_turnaround := ∅ |}.

(** [i < len(processes) or ready] *)
Definition np_cond (processes : list process) (st : np_state) : bool :=
  bool_decide (n_i st < length processes)%nat || nonempty (n_ready st).

(** One iteration of the outer loop.  [ready.sort] keeps an empty list
    empty, so [if ready:] is the match on the sorted list, and
    [ready.pop(0)] is its head. *)
Definition np_body (key : process → num) (processes : list process)
    (st : np_state) : outcome np_state :=
  let '(i, ready) := admission (n_time st) (drop (n_i st) processes) (n_i st) (n_ready st) in
  ready ←? sorted key ready;
  match ready with
  | p :: ready' =>
      let start := n_time st in
      finish ←? add (n_time st) (burst p);
      w ←? sub start (arrival p);
      t ←? sub finish (arrival p);
      Done {| n_i := i; n_ready := ready'; n_time := finish;
              n_gantt := n_gantt st ++ [(id p, start, finish)];
              n_waiting := <[id p := w]> (n_waiting st);
              n_turnaround := <[id p := t]> (n_turnaround st) |}
  | [] =>
      time ←? add (n_time st) (Int 1);
      Done {| n_i := i; n_ready := ready; n_time := time;
              n_gantt := n_gantt st; n_waiting := n_waiting st;
              n_turnaround := n_turnaround st |}
  end.

Definition np_schedule (key : process → num) (fuel : nat)
    (processes : list process) : outcome result :=
  processes ←? sorted arrival processes;
  st ←? while (np_cond processes) (np_body key processes) fuel np_init;
  Done (n_gantt st, n_waiting st, n_turnaround st).

Definition sjf : nat → list process → outcome result := np_schedule burst.

Definition priority_scheduling : nat → list process → outcome result :=
  np_schedule priority.

(** ** [round_robin] *)

Record rr_state := RrState {
  r_i : nat;
  r_queue : list process;
  r_time : num;
  r_remaining : gmap string num;
  r_finish_time : gmap string num;
  r_gantt : list interval
}.

Definition remaining_init (processes : list process) : gmap string num :=
  foldl (λ m p, <[id p := burst p]> m) ∅ processes.

Definition rr_init (processes : list process) : rr_state :=
  {| r_i := 0; r_queue := []; r_time := Int 0;
     r_remaining := remaining_init processes;
     r_finish_time := ∅; r_gantt := [] |}.

(** [i < len(processes) or queue] *)
Definition rr_cond (processes : list process) (st : rr_state) : bool :=
  bool_decide (r_i st < length processes)%nat || nonempty (r_queue st).

Definition rr_body (quantum : num) (processes : list process)
    (st : rr_state) : outcome rr_state :=
  let '(i, queue) := admission (r_time st) (drop (r_i st) processes) (r_i st) (r_queue st) in
  match queue with
  | p :: queue =>
      rem ←? getitem (r_remaining st) (id p);
      let exec_time := min quantum rem in
      let start := r_time st in
      finish ←? add (r_time st) exec_time;
      let gantt := r_gantt st ++ [(id p, start, finish)] in
      rem' ←? sub rem exec_time;
      let remaining := <[id p := rem']> (r_remaining st) in
      let time := finish in
      if lt (Int 0) rem' then
        let '(i, queue) := admission time (drop i processes) i queue in
        Done {| r_i := i; r_queue := queue ++ [p]; r_time := time;
                r_remaining := remaining;
                r_finish_time := r_finish_time st; r_gantt := gantt |}
      else
        Done {| r_i := i; r_queue := queue; r_time := time;
                r_remaining := remaining;
                r_finish_time := <[id p := time]> (r_finish_time st);
                r_gantt := gantt |}
  | [] =>
      time ←? add (r_time st) (Int 1);
      Done {| r_i := i; r_queue := queue; r_time := time;
              r_remaining := r_remaining st;
              r_finish_time := r_finish_time st; r_gantt := r_gantt st |}
  end.

(** The body of the closing [for p in processes]. *)
Definition rr_metrics_body (finish_time : gmap string num)
    (acc : outcome (gmap string num * gmap string num)) (p : process) :
    outcome (gmap string num * gmap string num) :=
  wt ←? acc;
  ft ←? getitem finish_time (id p);
  t ←? sub ft (arrival p);
  w ←? sub t (burst p);
  Done (<[id p := w]> wt.1, <[id p := t]> wt.2).

Definition round_robin (fuel : nat) (processes : list process) (quantum : num) :
    outcome result :=
  processes ←? sorted arrival processes;
  st ←? while (rr_cond processes) (rr_body quantum processes) fuel (rr_init processes);
  wt ←? foldl (rr_metrics_body (r_finish_time st)) (Done (∅, ∅)) processes;
  Done (r_gantt st, wt.1, wt.2).

(** [finish - start], the width of the bar [plot_gantt] draws. *)
Definition duration (iv : interval) : outcome num :=
  sub (iv_finish iv) (iv_start iv).

(** ** Valid inputs *)

Definition integer (a : num) : Prop :=
  match a with
  | Int _ => True
  | Float _ => False
  end.

(** Unique ids, positive bursts, arrivals that are not negative. *)
Definition valid (processes : list process) : Prop :=
  NoDup (id <$> processes) ∧
  Forall (λ p, lt (Int 0) (burst p) = true) processes ∧
  Forall (λ p, le (Int 0) (arrival p) = true) processes.

(** ** Worked inputs *)

(** [A] has the burst [2.0**53]; [B] arrives at [2**53 + 2]. *)
Definition stalling_example : list process :=
  [ Process "A" (Int 0) (Float 9007199254740992) (Int 1);
    Process "B" (Int (2 ^ 53 + 2)) (Int 1) (Int 2) ].

(** The clock of [sjf] after it has run [A]: the float [2.0**53], which
    adding 1 leaves unchanged. *)
Definition stalled_state : np_state :=
  {| n_i := 1; n_ready := []; n_time := Float 9007199254740992;
     n_gantt := [("A", Int 0, Float 9007199254740992)];
     n_waiting := {[ "A" := Int 0 ]};
     n_turnaround := {[ "A" := Float 9007199254740992 ]} |}.

(** Two processes that arrive at 0 with the bursts [0.1] and [0.2]. *)
Definition rounding_example : list process :=
  [ Process "A" (Int 0) (Float 0.1) (Int 1);
    Process "B" (Int 0) (Float 0.2) (Int 2) ].

(** [B] arrives at [0.7], when [A] finishes. *)
Definition handover_example : list process :=
  [ Process "A" (Int 0) (Float 0.7) (Int 1);
    Process "B" (Float 0.7) (Float 0.2) (Int 2) ].

(** [B] arrives at [0.1], while [A] runs. *)
Definition queued_example : list process :=
  [ Process "A" (Int 0) (Float 0.7) (Int 1);
    Process "B" (Float 0.1) (Float 0.2) (Int 2) ].

(** Integer arrivals, and a burst of [0.5] that ends between two ticks. *)
Definition half_burst_example : list process :=
  [ Process "A" (Int 0) (Float 0.5) (Int 1);
    Process "B" (Int 1) (Int 1) (Int 2) ].

(** One process that arrives at [0.5], between two ticks. *)
Definition half_arrival_example : list process :=
  [ Process "A" (Float 0.5) (Float 0.25) (Int 1) ].

Definition rounding_fcfs : result :=
  ([ ("A", Int 0, Float 0.1); ("B", Float 0.1, Float 0.30000000000000004) ],
   {[ "A" := Int 0; "B" := Float 0.1 ]},
   {[ "A" := Float 0.1; "B" := Float 0.30000000000000004 ]}).

Definition handover_rr : result :=
  ([ ("A", Int 0, Float 0.7); ("B", Float 0.7, Float 0.8999999999999999) ],
   {[ "A" := Float 0; "B" := Float (-0x1p-54) ]},
   {[ "A" := Float 0.7; "B" := Float 0.19999999999999996 ]}).

Definition queued_fcfs : result :=
  ([ ("A", Int 0, Float 0.7); ("B", Float 0.7, Float 0.8999999999999999) ],
   {[ "A" := Int 0; "B" := Float 0.6 ]},
   {[ "A" := Float 0.7; "B" := Float 0.7999999999999999 ]}).

Definition half_burst_fcfs : result :=
  ([ ("A", Int 0, Float 0.5); ("B", Int 1, Int 2) ],
   {[ "A" := Int 0; "B" := Int 0 ]},
   {[ "A" := Float 0.5; "B" := Int 1 ]}).

Definition half_burst_rr : result :=
  ([ ("A", Int 0, Float 0.5); ("B", Float 1.5, Float 2.5) ],
   {[ "A" := Float 0; "B" := Float 0.5 ]},
   {[ "A" := Float 0.5; "B" := Float 1.5 ]}).

Definition half_arrival_sjf : result :=
  ([ ("A", Int 1, Float 1.25) ],
   {[ "A" := Float 0.5 ]},
   {[ "A" := Float 0.75 ]}).

End Numeric.

(** * Specification vocabulary *)

(** ** Returning calls *)

(** A call returns [r] when some iteration budget is enough for it. *)
Definition sjf_returns (processes : list process) (r : result) : Prop :=
  ∃ fuel, sjf fuel processes = Done r.

Definition priority_returns (processes : list process) (r : result) : Prop :=
  ∃ fuel, priority_scheduling fuel processes = Done r.

Definition rr_returns (processes : list process) (quantum : Z) (r : result) : Prop :=
  ∃ fuel, round_robin fuel processes quantum = Done r.

(** ** Valid inputs and properties of a schedule result *)

(** A valid input: unique ids, positive bursts, arrivals that are not
    negative (the fields are integers by their type). *)
Definition valid (processes : list process) : Prop :=
  NoDup (id <$> processes) ∧
  Forall (λ p, 0 < burst p) processes ∧
  Forall (λ p, 0 ≤ arrival p) processes.

Global Instance valid_dec processes : Decision (valid processes).
Proof. unfold valid. apply _. Defined.

Definition duration (iv : interval) : Z := iv_finish iv - iv_start iv.

Definition sum_Z (l : list Z) : Z := foldr Z.add 0 l.

(** The intervals of the process [pid], and the total time they cover. *)
Definition intervals_of (pid : string) (gantt : list interval) : list interval :=
  filter (λ iv, iv_id iv = pid) gantt.

Definition executed (pid : string) (gantt : list interval) : Z :=
  sum_Z (duration <$> intervals_of pid gantt).

(** Conservation: each process is executed for its burst. *)
Definition conserves (processes : list process) (r : result) : Prop :=
  ∀ p, p ∈ processes → executed (id p) r.1.1 = burst p.

(** Starts never decrease along the timeline, and an interval starts no
    earlier than every interval before it has finished. *)
Definition chronological (gantt : list interval) : Prop :=
  StronglySorted (λ a b, iv_start a ≤ iv_start b) gantt ∧
  StronglySorted (λ a b, iv_finish a ≤ iv_start b) gantt.

(** One interval per process, over its whole burst, not before it arrives. *)
Definition single_interval (processes : list process) (r : result) : Prop :=
  ∀ p, p ∈ processes →
    ∃ start, intervals_of (id p) r.1.1 = [(id p, start, start + burst p)] ∧
             arrival p ≤ start.

(** The two mappings are defined on the ids of the input and nowhere else,
    and turnaround = waiting + burst with waiting not negative. *)
Definition metrics_consistent (processes : list process) (r : result) : Prop :=
  dom r.1.2 = list_to_set (id <$> processes) ∧
  dom r.2 = list_to_set (id <$> processes) ∧
  ∀ p, p ∈ processes →
    ∃ w, r.1.2 !! id p = Some w ∧ r.2 !! id p = Some (w + burst p) ∧
         0 ≤ w ∧ 0 ≤ w + burst p.

(** [P] holds of what each of the four functions returns, and each of
    them returns. *)
Definition all_four (P : list process → result → Prop)
    (processes : list process) (quantum : Z) : Prop :=
  P processes (fcfs processes) ∧
  (∃ r, sjf_returns processes r ∧ P processes r) ∧
  (∃ r, priority_returns processes r ∧ P processes r) ∧
  (∃ r, rr_returns processes quantum r ∧ P processes r).

(** The same for the three functions that run a process to completion. *)
Definition all_nonpreemptive (P : list process → result → Prop)
    (processes : list process) : Prop :=
  P processes (fcfs processes) ∧
  (∃ r, sjf_returns processes r ∧ P processes r) ∧
  (∃ r, priority_returns processes r ∧ P processes r).


(** The ids [P1], ..., [Pn]. *)
Definition ui_ids (n : nat) : list string :=
  (λ k, "P" +:+ pretty (k + 1)%nat) <$> seq 0 n.


(** Every interval is a slice of an input process, taken after the
    process has arrived, and no longer than the quantum. *)
Definition slices_bounded (quantum : Z) (processes : list process)
    (r : result) : Prop :=
  Forall (λ iv, ∃ p, p ∈ processes ∧ iv_id iv = id p ∧
                     arrival p ≤ iv_start iv ∧ 0 < duration iv ≤ quantum) r.1.1.

(** The intervals of each process are slices of exactly one quantum
    followed by a last slice of at most one quantum, and together they
    make up the burst. *)
Definition sliced (quantum : Z) (processes : list process) (r : result) : Prop :=
  ∀ p, p ∈ processes →
    ∃ full last,
      intervals_of (id p) r.1.1 = full ++ [last] ∧
      Forall (λ iv, duration iv = quantum) full ∧
      0 < duration last ≤ quantum ∧
      burst p = quantum * Z.of_nat (length full) + duration last.

(** The metrics of each process are those of the time its last interval
    finishes: turnaround = completion - arrival and
    waiting = completion - arrival - burst. *)
Definition completion_time (processes : list process) (r : result) : Prop :=
  ∀ p, p ∈ processes →
    ∃ iv, last (intervals_of (id p) r.1.1) = Some iv ∧
          r.2 !! id p = Some (iv_finish iv - arrival p) ∧
          r.1.2 !! id p = Some (iv_finish iv - arrival p - burst p).

(** The time the last interval of a timeline finishes, 0 for the empty
    timeline. *)
Definition last_finish (gantt : list interval) : Z :=
  from_option iv_finish 0 (last gantt).

(** The processor is never left idle while a process that has arrived is
    unfinished: every interval starts when the interval before it finishes
    (at 0 for the first), or else it starts exactly when its process
    arrives, and every process that arrived earlier has by then been
    executed for its whole burst. *)
Definition work_conserving (processes : list process) (r : result) : Prop :=
  ∀ before iv after, r.1.1 = before ++ iv :: after →
    iv_start iv = last_finish before ∨
    ((∃ p, p ∈ processes ∧ iv_id iv = id p ∧ arrival p = iv_start iv) ∧
     ∀ q, q ∈ processes → arrival q < iv_start iv →
          executed (id q) before = burst q).

(** ** Progress of the loops *)

(** The sum of the positive entries of [remaining]. *)
Definition total_remaining (m : gmap string Z) : nat :=
  map_fold (λ _ v acc, (Z.to_nat v + acc)%nat) 0%nat m.

(** The work left in [sjf] and [priority_scheduling]: the bursts of the
    processes that have not been run. *)
Definition np_work (processes : list process) (st : np_state) : Z :=
  sum_Z (burst <$> n_ready st ++ drop (n_i st) processes).

(** At every iteration the loop gets to, the clock strictly increases, and
    the work left strictly decreases unless the iteration is an idle tick,
    which emits no interval. *)
Definition np_progress (key : process → Z) (processes : list process) : Prop :=
  let processes := sorted arrival processes in
  ∀ k st,
    loop_state (np_cond processes) (λ s, Done (np_body key processes s)) k np_init
      = Some st →
    np_cond processes st = true →
    let st' := np_body key processes st in
    n_time st < n_time st' ∧
    (np_work processes st' < np_work processes st ∨
     (np_work processes st' = np_work processes st ∧ n_gantt st' = n_gantt st)).

Definition rr_progress (processes : list process) (quantum : Z) : Prop :=
  let processes := sorted arrival processes in
  ∀ k st,
    loop_state (rr_cond processes) (rr_body quantum processes) k (rr_init processes)
      = Some st →
    rr_cond processes st = true →
    ∃ st', rr_body quantum processes st = Done st' ∧
      r_time st < r_time st' ∧
      ((total_remaining (r_remaining st') < total_remaining (r_remaining st))%nat ∨
       (total_remaining (r_remaining st') = total_remaining (r_remaining st) ∧
        r_gantt st' = r_gantt st)).

(** ** The selection rule *)

(** [x] comes before [y] in [l]. *)
Definition precedes {A} (l : list A) (x y : A) : Prop := [x; y] `sublist_of` l.

(** [p] is chosen over [r]: smaller key, then earlier arrival, then earlier
    place in the input. *)
Definition prefers (key : process → Z) (input : list process)
    (p r : process) : Prop :=
  key p < key r ∨
  (key p = key r ∧
   (arrival p < arrival r ∨ (arrival p = arrival r ∧ precedes input p r))).

(** At every iteration the loop gets to: the processes admitted are the
    not yet admitted ones that have arrived, the others stay; with nothing
    ready the clock ticks; otherwise one ready process [p] is run to
    completion and removed, and [p] is preferred to every process left
    in the ready list. *)
Definition np_selection (key : process → Z) (input : list process) : Prop :=
  let processes := sorted arrival input in
  ∀ k st,
    loop_state (np_cond processes) (λ s, Done (np_body key processes s)) k np_init
      = Some st →
    np_cond processes st = true →
    let pending := drop (n_i st) processes in
    let ready := n_ready st ++ filter (λ p, arrival p ≤ n_time st) pending in
    let st' := np_body key processes st in
    drop (n_i st') processes = filter (λ p, n_time st < arrival p) pending ∧
    match ready with
    | [] =>
        n_ready st' = [] ∧ n_gantt st' = n_gantt st ∧ n_time st' = n_time st + 1
    | _ :: _ =>
        ∃ p, ready ≡ₚ p :: n_ready st' ∧
             n_gantt st' = n_gantt st ++ [(id p, n_time st, n_time st + burst p)] ∧
             n_time st' = n_time st + burst p ∧
             ∀ r, r ∈ n_ready st' → prefers key input p r
    end.

(** The result [r] is what the loop of [sjf] ([priority_scheduling]) holds
    when it stops, which it does after [K] iterations. *)
Definition np_stops (key : process → Z) (input : list process)
    (K : nat) (r : result) : Prop :=
  let processes := sorted arrival input in
  ∃ final,
    loop_state (np_cond processes) (λ s, Done (np_body key processes s)) K np_init
      = Some final ∧
    np_cond processes final = false ∧
    r = (n_gantt final, n_waiting final, n_turnaround final).

(** The same for [round_robin], whose closing loop computes the two
    mappings from the completion times. *)
Definition rr_stops (input : list process) (quantum : Z)
    (K : nat) (r : result) : Prop :=
  let processes := sorted arrival input in
  ∃ final wt,
    loop_state (rr_cond processes) (rr_body quantum processes) K (rr_init processes)
      = Some final ∧
    rr_cond processes final = false ∧
    rr_metrics (r_finish_time final) processes = Done wt ∧
    r = (r_gantt final, wt.1, wt.2).

(** ** Worked inputs *)

(** What [round_robin] returns on the example. *)
Definition example_rr_result : result :=
  ([ ("P1", 0, 2); ("P2", 2, 4); ("P3", 4, 6); ("P1", 6, 8); ("P2", 8, 9);
     ("P3", 9, 11); ("P1", 11, 12); ("P3", 12, 14); ("P3", 14, 16) ],
   {[ "P1" := 7; "P2" := 5; "P3" := 6 ]},
   {[ "P1" := 12; "P2" := 8; "P3" := 14 ]}).

(** The result the specification's example lists. *)
Definition example_rr_listed : result :=
  ([ ("P1", 0, 2); ("P2", 2, 4); ("P1", 4, 6); ("P3", 6, 8); ("P2", 8, 9);
     ("P1", 9, 10); ("P3", 10, 12); ("P3", 12, 16) ],
   {[ "P1" := 5; "P2" := 5; "P3" := 6 ]},
   {[ "P1" := 10; "P2" := 8; "P3" := 14 ]}).

(** A list with a zero burst, a negative arrival and a repeated id. *)
Definition invalid_example : list process :=
  [ Process "P1" (-1) 0 1; Process "P1" 0 1 1 ].


(** * Generic facts *)

(** ** The loop combinator *)
Section while_facts.
Context {S : Type} (cond : S → bool) (body : S → outcome S).

(** More budget never changes an answer already obtained. *)
Lemma while_fuel_mono fuel fuel' s :
  while cond body fuel s ≠ OutOfFuel → (fuel ≤ fuel')%nat →
  while cond body fuel' s = while cond body fuel s.
Proof.
  revert fuel' s. induction fuel as [|fuel IH]; intros fuel' s Hne Hle.
  - destruct fuel'; simpl in *; destruct (cond s); congruence.
  - destruct fuel' as [|fuel']; [lia|]. simpl in *.
    destruct (cond s); [|done].
    destruct (body s) as [s'| |]; simpl in *; [|done..].
    apply IH; [done|lia].
Qed.

Lemma while_deterministic fuel1 fuel2 s a b :
  while cond body fuel1 s = Done a → while cond body fuel2 s = Done b → a = b.
Proof.
  intros H1 H2.
  assert (while cond body (fuel1 `max` fuel2) s = Done a) as Ha.
  { rewrite <- H1. apply while_fuel_mono; [congruence|lia]. }
  assert (while cond body (fuel1 `max` fuel2) s = Done b) as Hb.
  { rewrite <- H2. apply while_fuel_mono; [congruence|lia]. }
  congruence.
Qed.

(** Invariant rule: what holds before the loop and is kept by every
    iteration holds, with the negated condition, when the loop returns. *)
Lemma while_invariant (I : S → Prop) fuel s s' :
  (∀ s1 s2, I s1 → cond s1 = true → body s1 = Done s2 → I s2) →
  I s → while cond body fuel s = Done s' → I s' ∧ cond s' = false.
Proof.
  intros Hstep. revert s. induction fuel as [|fuel IH]; simpl; intros s Hs.
  - destruct (cond s) eqn:Hc; [done|]. by intros [= <-].
  - destruct (cond s) eqn:Hc; [|by intros [= <-]].
    destruct (body s) as [s1| |] eqn:Hb; simpl; [|done..].
    apply IH. eauto.
Qed.

Lemma loop_state_invariant (I : S → Prop) k s s' :
  (∀ s1 s2, I s1 → cond s1 = true → body s1 = Done s2 → I s2) →
  I s → loop_state cond body k s = Some s' → I s'.
Proof.
  intros Hstep. revert s. induction k as [|k IH]; simpl; intros s Hs.
  - by intros [= <-].
  - destruct (cond s) eqn:Hc; [|done].
    destruct (body s) as [s1| |] eqn:Hb; [|done..].
    apply IH. eauto.
Qed.

(** Termination rule: a pair of natural-number measures that decreases
    lexicographically at every iteration bounds the number of iterations. *)
Lemma while_terminates (I : S → Prop) (m1 m2 : S → nat) :
  (∀ s, I s → cond s = true →
     ∃ s', body s = Done s' ∧ I s' ∧
           (m1 s' < m1 s ∨ (m1 s' = m1 s ∧ m2 s' < m2 s))%nat) →
  ∀ s, I s → ∃ fuel s', while cond body fuel s = Done s'.
Proof.
  intros Hstep.
  assert (∀ a b s, m1 s = a → m2 s = b → I s →
            ∃ fuel s', while cond body fuel s = Done s') as Hwf; [|eauto].
  induction a as [a IHa] using lt_wf_ind.
  induction b as [b IHb] using lt_wf_ind.
  intros s Ha Hb Hs. destruct (cond s) eqn:Hc.
  - destruct (Hstep s Hs Hc) as (s1 & Hbody & Hs1 & Hdec).
    assert (∃ fuel s', while cond body fuel s1 = Done s') as (fuel & s' & Hw).
    { destruct Hdec as [Hlt|[Heq Hlt]].
      - eapply (IHa (m1 s1)); [lia|done..].
      - eapply (IHb (m2 s1)); [lia|lia|done..]. }
    exists (Datatypes.S fuel), s'. simpl. by rewrite Hc, Hbody.
  - exists O, s. simpl. by rewrite Hc.
Qed.

End while_facts.

(** A loop that returns has gone through the states [loop_state] lists, and
    returns the first of them in which the condition fails. *)
Lemma while_loop_state {S : Type} (cond : S → bool) (body : S → outcome S)
    fuel s s' :
  while cond body fuel s = Done s' →
  ∃ K, (K ≤ fuel)%nat ∧ loop_state cond body K s = Some s' ∧ cond s' = false ∧
       while cond body K s = Done s'.
Proof.
  revert s. induction fuel as [|fuel IH]; simpl; intros s.
  - destruct (cond s) eqn:Hc; [done|]. intros [= <-].
    exists 0%nat. simpl. by rewrite Hc.
  - destruct (cond s) eqn:Hc.
    + destruct (body s) as [s1| |] eqn:Hb; simpl; [|done..]. intros Hw.
      destruct (IH s1 Hw) as (K & HK & Hls & Hc' & Hw').
      exists (Datatypes.S K). simpl. rewrite Hc, Hb. simpl.
      split; [lia|done].
    + intros [= <-]. exists 0%nat. simpl. rewrite Hc. split; [lia|done].
Qed.


(** ** The stable sort *)
Section sorted_facts.
Context {A : Type} (key : A → Z).

Lemma insert_by_perm x l : insert_by key x l ≡ₚ x :: l.
Proof.
  induction l as [|y l IH]; simpl; [done|].
  case_bool_decide; [done|]. rewrite IH. apply Permutation_swap.
Qed.

Lemma sorted_perm l : sorted key l ≡ₚ l.
Proof.
  induction l as [|x l IH]; simpl; [done|].
  by rewrite insert_by_perm, IH.
Qed.

Lemma sorted_length l : length (sorted key l) = length l.
Proof. by rewrite sorted_perm. Qed.

Lemma sorted_elem_of x l : x ∈ sorted key l ↔ x ∈ l.
Proof. by rewrite sorted_perm. Qed.

Lemma sorted_nil_inv l : sorted key l = [] → l = [].
Proof.
  intros H. apply Permutation_nil_r. rewrite <- H. by rewrite sorted_perm.
Qed.

(** Stability: elements with the same key keep their relative order. *)
Lemma insert_by_filter k x l :
  filter (λ y, key y = k) (insert_by key x l) = filter (λ y, key y = k) (x :: l).
Proof.
  induction l as [|y l IH]; simpl; [done|].
  case_bool_decide as Hxy; [done|].
  rewrite !filter_cons in *.
  destruct (decide (key y = k)) as [Hy|Hy]; destruct (decide (key x = k)) as [Hx|Hx];
    try lia; by rewrite IH.
Qed.

Lemma sorted_stable k l :
  filter (λ y, key y = k) (sorted key l) = filter (λ y, key y = k) l.
Proof.
  induction l as [|x l IH]; simpl; [done|].
  rewrite insert_by_filter, !filter_cons. by rewrite IH.
Qed.

Lemma insert_by_sorted x l :
  StronglySorted (λ a b, key a ≤ key b) l →
  StronglySorted (λ a b, key a ≤ key b) (insert_by key x l).
Proof.
  induction 1 as [|y l Hl IH Hy]; simpl.
  - repeat constructor.
  - case_bool_decide as Hxy.
    + constructor; [by constructor|]. constructor; [done|].
      eapply Forall_impl; [done|]. simpl. intros; lia.
    + constructor; [done|]. rewrite insert_by_perm. constructor; [lia|done].
Qed.

Lemma sorted_sorted l : StronglySorted (λ a b, key a ≤ key b) (sorted key l).
Proof.
  induction l as [|x l IH]; simpl; [constructor|]. by apply insert_by_sorted.
Qed.

(** The head of the sorted list has the least key, and is the first element
    of the original list with that key. *)
Lemma sorted_head_least p rest l :
  sorted key l = p :: rest → ∀ x, x ∈ l → key p ≤ key x.
Proof.
  intros Hs x Hx. pose proof (sorted_sorted l) as Hss. rewrite Hs in Hss.
  apply sorted_elem_of in Hx. rewrite Hs in Hx.
  apply StronglySorted_inv in Hss as [_ Hall].
  apply elem_of_cons in Hx as [->|Hx]; [lia|].
  by eapply Forall_forall in Hall.
Qed.

Lemma sorted_head_first p rest l :
  sorted key l = p :: rest →
  ∃ rest', filter (λ y, key y = key p) l = p :: rest'.
Proof.
  intros Hs. rewrite <- (sorted_stable (key p) l), Hs.
  rewrite filter_cons. destruct (decide (key p = key p)); [eauto|done].
Qed.
End sorted_facts.

(** ** The admission loop *)

(** The longest prefix of [pending] that has arrived by [time]. *)
Fixpoint arrived (time : Z) (pending : list process) : list process :=
  match pending with
  | [] => []
  | p :: pending' =>
      if bool_decide (arrival p ≤ time) then p :: arrived time pending' else []
  end.

Lemma admission_arrived time pending i queue :
  admission time pending i queue =
    ((i + length (arrived time pending))%nat, queue ++ arrived time pending).
Proof.
  revert i queue. induction pending as [|p pending IH]; intros i queue; simpl.
  - by rewrite Nat.add_0_r, app_nil_r.
  - case_bool_decide; simpl.
    + rewrite IH, <- app_assoc. simpl. f_equal. lia.
    + by rewrite Nat.add_0_r, app_nil_r.
Qed.

Lemma arrived_split time pending :
  arrived time pending ++ drop (length (arrived time pending)) pending = pending.
Proof.
  induction pending as [|p pending IH]; simpl; [done|].
  case_bool_decide; simpl; [by rewrite IH|done].
Qed.

Lemma arrived_Forall time pending :
  Forall (λ p, arrival p ≤ time) (arrived time pending).
Proof.
  induction pending as [|p pending IH]; simpl; [done|].
  case_bool_decide; by constructor.
Qed.

Lemma arrived_rest time pending p rest :
  drop (length (arrived time pending)) pending = p :: rest → time < arrival p.
Proof.
  induction pending as [|p' pending IH]; simpl; [done|].
  case_bool_decide; simpl; [done|]. intros [= -> _]. lia.
Qed.

Lemma arrived_length time pending :
  (length (arrived time pending) ≤ length pending)%nat.
Proof.
  induction pending as [|p pending IH]; simpl; [done|].
  case_bool_decide; simpl; lia.
Qed.

Lemma filter_all {A} (P : A → Prop) `{!∀ x, Decision (P x)} (l : list A) :
  Forall P l → filter P l = l.
Proof.
  induction 1 as [|x l Hx Hl IH]; [done|].
  rewrite filter_cons, decide_True by done. by rewrite IH.
Qed.

Lemma filter_none {A} (P : A → Prop) `{!∀ x, Decision (P x)} (l : list A) :
  Forall (λ x, ¬ P x) l → filter P l = [].
Proof.
  induction 1 as [|x l Hx Hl IH]; [done|].
  by rewrite filter_cons, decide_False by done.
Qed.

(** On a list sorted by arrival the loop admits every process that has
    arrived, and leaves every process that has not. *)
Lemma arrived_sorted time pending :
  StronglySorted (λ a b, arrival a ≤ arrival b) pending →
  arrived time pending = filter (λ p, arrival p ≤ time) pending ∧
  drop (length (arrived time pending)) pending = filter (λ p, time < arrival p) pending.
Proof.
  induction 1 as [|p pending Hs [IH1 IH2] Hp]; simpl; [done|].
  rewrite !filter_cons. case_bool_decide as Hle; simpl.
  - rewrite decide_True by done. rewrite decide_False by lia. by rewrite IH2, IH1.
  - rewrite decide_False by done. rewrite decide_True by lia.
    assert (Forall (λ p0, time < arrival p0) pending) as Hall.
    { eapply Forall_impl; [done|]. simpl. intros; lia. }
    split.
    + symmetry. apply filter_none. eapply Forall_impl; [done|]. simpl. intros; lia.
    + f_equal. symmetry. by apply filter_all.
Qed.

(** * Returning calls *)

Lemma np_schedule_inv key fuel processes r :
  np_schedule key fuel processes = Done r →
  ∃ st, np_loop key (sorted arrival processes) fuel np_init = Done st ∧
        r = (n_gantt st, n_waiting st, n_turnaround st).
Proof.
  unfold np_schedule.
  destruct (np_loop _ _ _ _) as [st| |]; simpl; [|done..].
  intros [= <-]. eauto.
Qed.

Lemma round_robin_inv fuel processes quantum r :
  round_robin fuel processes quantum = Done r →
  ∃ st wt,
    rr_loop quantum (sorted arrival processes) fuel
      (rr_init (sorted arrival processes)) = Done st ∧
    rr_metrics (r_finish_time st) (sorted arrival processes) = Done wt ∧
    r = (r_gantt st, wt.1, wt.2).
Proof.
  unfold round_robin.
  destruct (rr_loop _ _ _ _) as [st| |]; simpl; [|done..].
  destruct (rr_metrics _ _) as [wt| |] eqn:Hm; simpl; [|done..].
  intros [= <-]. by exists st, wt.
Qed.

Lemma np_schedule_deterministic key fuel1 fuel2 processes r1 r2 :
  np_schedule key fuel1 processes = Done r1 →
  np_schedule key fuel2 processes = Done r2 → r1 = r2.
Proof.
  intros (st1 & H1 & ->)%np_schedule_inv (st2 & H2 & ->)%np_schedule_inv.
  by rewrite (while_deterministic _ _ _ _ _ _ _ H1 H2).
Qed.

Lemma round_robin_deterministic fuel1 fuel2 processes quantum r1 r2 :
  round_robin fuel1 processes quantum = Done r1 →
  round_robin fuel2 processes quantum = Done r2 → r1 = r2.
Proof.
  intros (st1 & wt1 & H1 & Hm1 & ->)%round_robin_inv
         (st2 & wt2 & H2 & Hm2 & ->)%round_robin_inv.
  rewrite (while_deterministic _ _ _ _ _ _ _ H1 H2) in *. congruence.
Qed.

(** What a call returns is the state in which its loop stops. *)
Lemma np_schedule_stops key fuel processes r :
  np_schedule key fuel processes = Done r →
  ∃ K, np_schedule key K processes = Done r ∧ np_stops key processes K r.
Proof.
  intros (st & Hloop & ->)%np_schedule_inv.
  apply while_loop_state in Hloop as (K & _ & Hls & Hc & Hw).
  exists K. split.
  - unfold np_schedule, np_loop. by rewrite Hw.
  - by exists st.
Qed.

Lemma round_robin_stops fuel processes quantum r :
  round_robin fuel processes quantum = Done r →
  ∃ K, round_robin K processes quantum = Done r ∧ rr_stops processes quantum K r.
Proof.
  intros (st & wt & Hloop & Hwt & ->)%round_robin_inv.
  apply while_loop_state in Hloop as (K & _ & Hls & Hc & Hw).
  exists K. split.
  - unfold round_robin, rr_loop. rewrite Hw. simpl. by rewrite Hwt.
  - by exists st, wt.
Qed.

(** * The worked example under round-robin, quantum 2 *)

Lemma round_robin_example_run : round_robin 9 example 2 = Done example_rr_result.
Proof. vm_compute. reflexivity. Qed.

(** C1 (as amended): on the example with quantum 2, [round_robin] returns
    the timeline P1:[0,2), P2:[2,4), P3:[4,6), P1:[6,8), P2:[8,9),
    P3:[9,11), P1:[11,12), P3:[12,14), P3:[14,16), waiting times
    P1:7, P2:5, P3:6 and turnaround times P1:12, P2:8, P3:14, and nothing
    else. *)
Theorem round_robin_example r :
  rr_returns example 2 r ↔ r = example_rr_result.
Proof.
  split.
  - intros [fuel Hr].
    exact (round_robin_deterministic _ _ _ _ _ _ Hr round_robin_example_run).
  - intros ->. exists 9%nat. exact round_robin_example_run.
Qed.

(** C1 (as stated) fails: the listed result is not what [round_robin]
    returns on the example. *)
Lemma round_robin_example_not_listed :
  ¬ rr_returns example 2 example_rr_listed.
Proof.
  intros [fuel Hr].
  pose proof (round_robin_deterministic _ _ _ _ _ _ Hr round_robin_example_run) as Heq.
  apply (f_equal (λ r : result, length r.1.1)) in Heq. vm_compute in Heq. done.
Qed.

(** * Properties of a schedule result *)

Lemma sum_Z_app l1 l2 : sum_Z (l1 ++ l2) = sum_Z l1 + sum_Z l2.
Proof. induction l1 as [|x l1 IH]; simpl; lia. Qed.

Lemma intervals_of_snoc pid gantt iv :
  intervals_of pid (gantt ++ [iv]) =
    intervals_of pid gantt ++ (if decide (iv_id iv = pid) then [iv] else []).
Proof.
  unfold intervals_of. rewrite filter_app. f_equal.
Qed.

Lemma executed_snoc pid gantt iv :
  executed pid (gantt ++ [iv]) =
    executed pid gantt + (if decide (iv_id iv = pid) then duration iv else 0).
Proof.
  unfold executed. rewrite intervals_of_snoc, fmap_app, sum_Z_app.
  destruct (decide _); simpl; lia.
Qed.

(** Appending an interval that starts when all others have finished. *)
Lemma finish_sorted_snoc gantt iv :
  StronglySorted (λ a b, iv_finish a ≤ iv_start b) gantt →
  Forall (λ a, iv_finish a ≤ iv_start iv) gantt →
  StronglySorted (λ a b, iv_finish a ≤ iv_start b) (gantt ++ [iv]).
Proof.
  intros Hs Hall. apply StronglySorted_app. split; [|split].
  - intros a b Ha ->%list_elem_of_singleton. by eapply Forall_forall in Hall.
  - done.
  - repeat constructor.
Qed.

Lemma finish_sorted_chronological gantt :
  Forall (λ a, iv_start a ≤ iv_finish a) gantt →
  StronglySorted (λ a b, iv_finish a ≤ iv_start b) gantt →
  chronological gantt.
Proof.
  intros Hpos Hs. split; [|done].
  induction Hs as [|a gantt Hs IH Ha]; [constructor|].
  apply Forall_cons in Hpos as [Hpa Hpos]. constructor; [by apply IH|].
  eapply Forall_impl; [done|]. simpl. intros; lia.
Qed.

(** ** Run-to-completion schedules

    [done] lists the processes that were run with their start times, in
    the order they were run; [scheduled] ties the three outputs to it. *)
Definition slot (d : process * Z) : interval := (id d.1, d.2, d.2 + burst d.1).

Record scheduled (done : list (process * Z)) (time : Z)
    (gantt : list interval) (waiting turnaround : gmap string Z) : Prop := {
  sch_gantt : gantt = slot <$> done;
  sch_ids : NoDup (id <$> done.*1);
  sch_start : Forall (λ d, arrival d.1 ≤ d.2) done;
  sch_finish : Forall (λ d, d.2 + burst d.1 ≤ time) done;
  sch_sorted : StronglySorted (λ a b, iv_finish a ≤ iv_start b) gantt;
  sch_waiting : ∀ d, d ∈ done → waiting !! id d.1 = Some (d.2 - arrival d.1);
  sch_turnaround :
    ∀ d, d ∈ done → turnaround !! id d.1 = Some (d.2 + burst d.1 - arrival d.1);
  sch_dom_waiting : dom waiting = list_to_set (id <$> done.*1);
  sch_dom_turnaround : dom turnaround = list_to_set (id <$> done.*1)
}.

Lemma scheduled_nil time : scheduled [] time [] ∅ ∅.
Proof.
  split; simpl; try done; try constructor; try (intros d Hd; by apply elem_of_nil in Hd);
    by rewrite dom_empty_L.
Qed.

(** Running [p] to completion from [start], when the clock is at most
    [start], [p] has arrived and has not been run before. *)
Lemma scheduled_snoc done time gantt waiting turnaround p start time' :
  scheduled done time gantt waiting turnaround →
  time ≤ start → arrival p ≤ start → start + burst p ≤ time' → time ≤ time' →
  id p ∉ id <$> done.*1 →
  scheduled (done ++ [(p, start)]) time'
    (gantt ++ [(id p, start, start + burst p)])
    (<[id p := start - arrival p]> waiting)
    (<[id p := start + burst p - arrival p]> turnaround).
Proof.
  intros [Hg Hids Hst Hfin Hso Hw Ht Hdw Hdt] Hle Harr Hfin' Htime Hfresh.
  assert (∀ d, d ∈ done → id d.1 ≠ id p) as Hne.
  { intros d Hd Heq. apply Hfresh. rewrite <- Heq.
    apply list_elem_of_fmap_2, list_elem_of_fmap_2, Hd. }
  split.
  - by rewrite fmap_snoc, Hg.
  - rewrite !fmap_app. simpl. apply NoDup_app. split; [done|split; [|apply NoDup_singleton]].
    intros x Hx ->%list_elem_of_singleton. done.
  - apply Forall_app. split; [done|]. by constructor.
  - apply Forall_app. split; [|by constructor].
    eapply Forall_impl; [done|]. simpl. intros; lia.
  - apply finish_sorted_snoc; [done|]. subst gantt.
    apply Forall_fmap. eapply Forall_impl; [exact Hfin|].
    intros d Hd. unfold iv_finish, iv_start, slot. simpl in *. lia.
  - intros d [Hd| ->%list_elem_of_singleton]%elem_of_app.
    + rewrite lookup_insert_ne by (symmetry; by apply Hne). by apply Hw.
    + simpl. by rewrite lookup_insert_eq.
  - intros d [Hd| ->%list_elem_of_singleton]%elem_of_app.
    + rewrite lookup_insert_ne by (symmetry; by apply Hne). by apply Ht.
    + simpl. by rewrite lookup_insert_eq.
  - rewrite dom_insert_L, Hdw, !fmap_app, list_to_set_app_L. simpl. set_solver.
  - rewrite dom_insert_L, Hdt, !fmap_app, list_to_set_app_L. simpl. set_solver.
Qed.

Lemma scheduled_clock done time time' gantt waiting turnaround :
  scheduled done time gantt waiting turnaround → time ≤ time' →
  scheduled done time' gantt waiting turnaround.
Proof.
  intros [] Hle. split; try done.
  eapply Forall_impl; [done|]. simpl. intros; lia.
Qed.

(** A result that is a run-to-completion schedule of the input. *)
Definition run_to_completion (processes : list process) (r : result) : Prop :=
  ∃ done time, scheduled done time r.1.1 r.1.2 r.2 ∧ done.*1 ≡ₚ processes.

Section run_to_completion_facts.
Context (processes : list process) (r : result).
Hypothesis Hrun : run_to_completion processes r.

Lemma slot_filter_unique (done : list (process * Z)) d :
  NoDup (id <$> done.*1) → d ∈ done →
  filter (λ iv, iv_id iv = id d.1) (slot <$> done) = [slot d].
Proof.
  induction done as [|d' done IH]; simpl; intros Hnd Hd.
  - by apply elem_of_nil in Hd.
  - apply NoDup_cons in Hnd as [Hfresh Hnd]. rewrite filter_cons.
    apply elem_of_cons in Hd as [->|Hd].
    + rewrite decide_True by done. f_equal. apply filter_none.
      apply Forall_fmap, Forall_forall. intros d Hd Heq. apply Hfresh.
      unfold iv_id, slot in Heq. simpl in Heq. rewrite <- Heq.
      apply list_elem_of_fmap_2, list_elem_of_fmap_2, Hd.
    + rewrite decide_False; [by apply IH|].
      unfold iv_id, slot. simpl. intros Heq. apply Hfresh. rewrite Heq.
      apply list_elem_of_fmap_2, list_elem_of_fmap_2, Hd.
Qed.

Lemma run_to_completion_single_interval : single_interval processes r.
Proof.
  destruct Hrun as (done & time & Hsch & Hperm). intros p Hp.
  rewrite <- Hperm in Hp. apply list_elem_of_fmap in Hp as (d & -> & Hd).
  exists d.2. split.
  - unfold intervals_of. rewrite (sch_gantt _ _ _ _ _ Hsch).
    by rewrite (slot_filter_unique _ _ (sch_ids _ _ _ _ _ Hsch) Hd).
  - pose proof (sch_start _ _ _ _ _ Hsch) as Hst.
    by eapply Forall_forall in Hst.
Qed.

Lemma run_to_completion_conserves : conserves processes r.
Proof.
  intros p Hp.
  destruct (run_to_completion_single_interval p Hp) as (start & Heq & _).
  unfold executed. rewrite Heq. unfold duration, iv_finish, iv_start. simpl. lia.
Qed.


Lemma run_to_completion_metrics :
  Forall (λ p, 0 < burst p) processes → metrics_consistent processes r.
Proof.
  destruct Hrun as (done & time & Hsch & Hperm). intros Hpos. split; [|split].
  - rewrite (sch_dom_waiting _ _ _ _ _ Hsch). by rewrite Hperm.
  - rewrite (sch_dom_turnaround _ _ _ _ _ Hsch). by rewrite Hperm.
  - intros p Hp. eapply Forall_forall in Hpos; [|done]. rewrite <- Hperm in Hp.
    apply list_elem_of_fmap in Hp as (d & -> & Hd).
    pose proof (sch_start _ _ _ _ _ Hsch) as Hst.
    eapply Forall_forall in Hst; [|done]. simpl in *.
    exists (d.2 - arrival d.1). split; [|split; [|lia]].
    + by apply (sch_waiting _ _ _ _ _ Hsch).
    + rewrite (sch_turnaround _ _ _ _ _ Hsch) by done. f_equal. lia.
Qed.
End run_to_completion_facts.

(** * [fcfs] *)

Lemma fcfs_fold_scheduled l : ∀ st done,
  scheduled done (f_time st) (f_gantt st) (f_waiting st) (f_turnaround st) →
  NoDup (id <$> done.*1 ++ l) →
  Forall (λ p, 0 < burst p) l →
  ∃ done',
    scheduled done' (f_time (foldl fcfs_body st l)) (f_gantt (foldl fcfs_body st l))
      (f_waiting (foldl fcfs_body st l)) (f_turnaround (foldl fcfs_body st l)) ∧
    done'.*1 = done.*1 ++ l.
Proof.
  induction l as [|p l IH]; intros st done Hsch Hnd Hpos; simpl.
  - exists done. by rewrite app_nil_r.
  - apply Forall_cons in Hpos as [Hp Hpos].
    destruct (IH (fcfs_body st p) (done ++ [(p, if bool_decide (f_time st < arrival p)
                                                 then arrival p else f_time st)]))
      as (done' & Hsch' & Hdone'); [| |done|].
    + unfold fcfs_body. simpl. eapply scheduled_snoc; [done|..].
      * case_bool_decide; lia.
      * case_bool_decide; lia.
      * lia.
      * case_bool_decide; lia.
      * rewrite fmap_app in Hnd. simpl in Hnd.
        apply NoDup_app in Hnd as (_ & Hnd & _). intros Hin.
        apply (Hnd _ Hin). left.
    + by rewrite fmap_snoc, <- app_assoc.
    + exists done'. split; [done|]. by rewrite Hdone', fmap_snoc, <- app_assoc.
Qed.

Lemma fcfs_run_to_completion processes :
  valid processes → run_to_completion processes (fcfs processes).
Proof.
  intros (Hnd & Hpos & _).
  destruct (fcfs_fold_scheduled (sorted arrival processes) fcfs_init [])
    as (done & Hsch & Hdone).
  - apply scheduled_nil.
  - simpl. by rewrite sorted_perm.
  - by rewrite sorted_perm.
  - exists done, (f_time (foldl fcfs_body fcfs_init (sorted arrival processes))).
    split; [done|]. rewrite Hdone. simpl. apply sorted_perm.
Qed.

(** * [sjf] and [priority_scheduling] *)

Section np_facts.
Context (key : process → Z) (processes : list process).

(** The two ways an iteration can go: run the head of the sorted ready
    list, or tick when nothing is ready. *)
Lemma np_body_cases st :
  let new := arrived (n_time st) (drop (n_i st) processes) in
  (∃ p rest,
     sorted key (n_ready st ++ new) = p :: rest ∧
     np_body key processes st =
       {| n_i := n_i st + length new; n_ready := rest;
          n_time := n_time st + burst p;
          n_gantt := n_gantt st ++ [(id p, n_time st, n_time st + burst p)];
          n_waiting := <[id p := n_time st - arrival p]> (n_waiting st);
          n_turnaround :=
            <[id p := n_time st + burst p - arrival p]> (n_turnaround st) |}) ∨
  (n_ready st = [] ∧ new = [] ∧
   np_body key processes st =
     {| n_i := n_i st; n_ready := []; n_time := n_time st + 1;
        n_gantt := n_gantt st; n_waiting := n_waiting st;
        n_turnaround := n_turnaround st |}).
Proof.
  intros new. unfold np_body. rewrite admission_arrived. fold new.
  destruct (sorted key (n_ready st ++ new)) as [|p rest] eqn:Hs.
  - right. apply sorted_nil_inv, app_eq_nil in Hs as [-> ->].
    simpl. by rewrite Nat.add_0_r.
  - left. by exists p, rest.
Qed.

(** The distance to the next arrival, when nothing is ready. *)
Definition np_idle (st : np_state) : nat :=
  match drop (n_i st) processes with
  | p :: _ => Z.to_nat (arrival p - n_time st)
  | [] => 0
  end.

Definition np_unfinished (st : np_state) : nat :=
  (length processes - n_i st + length (n_ready st))%nat.

Lemma np_body_decreases st :
  (n_i st ≤ length processes)%nat → np_cond processes st = true →
  (n_i (np_body key processes st) ≤ length processes)%nat ∧
  ((np_unfinished (np_body key processes st) < np_unfinished st)%nat ∨
   (np_unfinished (np_body key processes st) = np_unfinished st ∧
    (np_idle (np_body key processes st) < np_idle st)%nat)).
Proof.
  intros Hi Hc. unfold np_unfinished, np_idle.
  pose proof (arrived_length (n_time st) (drop (n_i st) processes)) as Hlen.
  rewrite length_drop in Hlen.
  destruct (np_body_cases st) as [(p & rest & Hs & ->)|(Hr & Hnew & ->)]; simpl.
  - split; [lia|left].
    apply (f_equal length) in Hs. rewrite sorted_length, length_app in Hs.
    simpl in Hs. lia.
  - split; [done|right]. split; [by rewrite Hr|].
    unfold np_cond in Hc. rewrite Hr in Hc. simpl in Hc.
    rewrite orb_false_r in Hc. apply bool_decide_eq_true in Hc.
    destruct (drop (n_i st) processes) as [|p rest] eqn:Hd.
    { apply (f_equal length) in Hd. rewrite length_drop in Hd. simpl in Hd. lia. }
    pose proof (arrived_rest (n_time st) (p :: rest) p rest) as Hlt.
    rewrite Hnew in Hlt. specialize (Hlt eq_refl). lia.
Qed.

(** The loop returns from every state, whatever the process list. *)
Lemma np_loop_terminates st :
  (n_i st ≤ length processes)%nat →
  ∃ fuel st', np_loop key processes fuel st = Done st'.
Proof.
  intros Hi. unfold np_loop.
  apply (while_terminates _ _ (λ st, (n_i st ≤ length processes)%nat)
           np_unfinished np_idle); [|done].
  intros s Hs Hc. exists (np_body key processes s).
  destruct (np_body_decreases s Hs Hc) as [? ?]. done.
Qed.
End np_facts.

Lemma np_schedule_terminates key processes :
  ∃ fuel r, np_schedule key fuel processes = Done r.
Proof.
  destruct (np_loop_terminates key (sorted arrival processes) np_init)
    as (fuel & st & Hst); [simpl; lia|].
  exists fuel. eexists. unfold np_schedule. rewrite Hst. simpl. done.
Qed.

Section np_invariant.
Context (key : process → Z) (processes : list process).
Hypothesis Hids : NoDup (id <$> processes).
Hypothesis Hpos : Forall (λ p, 0 < burst p) processes.

(** The loop invariant: what has been run is a run-to-completion schedule
    up to the clock, every process is run, ready or not yet admitted, and
    what is ready has arrived. *)
Record np_inv (st : np_state) (done : list (process * Z)) : Prop := {
  npi_bound : (n_i st ≤ length processes)%nat;
  npi_scheduled :
    scheduled done (n_time st) (n_gantt st) (n_waiting st) (n_turnaround st);
  npi_perm : done.*1 ++ n_ready st ++ drop (n_i st) processes ≡ₚ processes;
  npi_ready : Forall (λ p, arrival p ≤ n_time st) (n_ready st)
}.

Lemma np_inv_init : np_inv np_init [].
Proof.
  split; simpl; [lia|apply scheduled_nil|by rewrite drop_0|done].
Qed.

Lemma np_inv_body st done :
  np_inv st done → ∃ done', np_inv (np_body key processes st) done'.
Proof.
  intros [Hb Hsch Hperm Hready].
  pose proof (arrived_length (n_time st) (drop (n_i st) processes)) as Hlen.
  rewrite length_drop in Hlen.
  pose proof (arrived_split (n_time st) (drop (n_i st) processes)) as Hsplit.
  rewrite drop_drop in Hsplit.
  pose proof (arrived_Forall (n_time st) (drop (n_i st) processes)) as Hnew.
  destruct (np_body_cases key processes st) as [(p & rest & Hs & ->)|(Hr & Hn & ->)].
  - assert (n_ready st ++ arrived (n_time st) (drop (n_i st) processes) ≡ₚ p :: rest)
      as Hpr by (by rewrite <- Hs, sorted_perm).
    assert (done.*1 ++ p :: rest ++
              drop (n_i st + length (arrived (n_time st) (drop (n_i st) processes)))
                processes ≡ₚ processes) as Hperm'.
    { rewrite <- Hperm at 3. rewrite <- Hsplit at 2.
      rewrite (app_assoc (n_ready st)), Hpr. done. }
    assert (Forall (λ q, arrival q ≤ n_time st) (p :: rest)) as Harr.
    { rewrite <- Hpr. by apply Forall_app. }
    apply Forall_cons in Harr as [Hp Harr].
    assert (0 < burst p) as Hbp.
    { eapply Forall_forall in Hpos; [done|]. rewrite <- Hperm'. set_solver. }
    exists (done ++ [(p, n_time st)]). split; simpl.
    + lia.
    + eapply scheduled_snoc; [done|lia..|].
      rewrite <- Hperm' in Hids. rewrite fmap_app in Hids.
      apply NoDup_app in Hids as (_ & Hnd & _). intros Hin.
      apply (Hnd _ Hin). simpl. left.
    + rewrite fmap_snoc, <- app_assoc. done.
    + eapply Forall_impl; [done|]. simpl. intros; lia.
  - exists done. rewrite Hr in *. split; simpl; [done| |done|done].
    eapply scheduled_clock; [done|lia].
Qed.

Definition np_invariant (st : np_state) : Prop := ∃ done, np_inv st done.

Lemma np_loop_run_to_completion fuel st :
  np_loop key processes fuel np_init = Done st →
  run_to_completion processes (n_gantt st, n_waiting st, n_turnaround st).
Proof.
  intros Hloop.
  apply (while_invariant _ _ np_invariant) in Hloop as [(done & Hinv) Hc].
  - destruct Hinv as [Hb Hsch Hperm Hready].
    unfold np_cond in Hc. apply orb_false_iff in Hc as [Hi Hr].
    apply bool_decide_eq_false in Hi. apply negb_false_iff, bool_decide_eq_true in Hr.
    rewrite Hr, drop_ge, !app_nil_r in Hperm by lia.
    by exists done, (n_time st).
  - intros s1 s2 [done Hinv] _ [= <-]. by eapply np_inv_body.
  - exists []. apply np_inv_init.
Qed.
End np_invariant.

Lemma valid_sorted processes :
  valid processes → valid (sorted arrival processes).
Proof. unfold valid. by rewrite sorted_perm. Qed.

Lemma run_to_completion_perm processes processes' r :
  processes ≡ₚ processes' →
  run_to_completion processes r → run_to_completion processes' r.
Proof.
  intros Hp (done & time & Hsch & Hperm). exists done, time.
  split; [done|]. by rewrite Hperm.
Qed.

Lemma np_schedule_run_to_completion key fuel processes r :
  valid processes → np_schedule key fuel processes = Done r →
  run_to_completion processes r.
Proof.
  intros Hv%valid_sorted (st & Hloop & ->)%np_schedule_inv.
  destruct Hv as (Hids & Hpos & _).
  eapply run_to_completion_perm; [apply (sorted_perm arrival)|].
  by eapply np_loop_run_to_completion.
Qed.

(** * [round_robin] *)

Lemma total_remaining_insert m k v v' :
  m !! k = Some v →
  (total_remaining (<[k := v']> m) + Z.to_nat v =
   total_remaining m + Z.to_nat v')%nat.
Proof.
  intros Hk. unfold total_remaining.
  rewrite <- (insert_delete_eq m k v').
  rewrite <- (insert_delete_id m k v) at 2 by done.
  rewrite !map_fold_insert_L; [lia|intros; lia|apply lookup_delete_eq
                              |intros; lia|apply lookup_delete_eq].
Qed.

Lemma remaining_init_lookup processes p :
  p ∈ processes → is_Some (remaining_init processes !! id p).
Proof.
  unfold remaining_init. generalize (∅ : gmap string Z).
  induction processes as [|p' processes IH] using rev_ind; intros m Hp.
  - by apply elem_of_nil in Hp.
  - rewrite foldl_snoc. apply elem_of_app in Hp as [Hp| ->%list_elem_of_singleton].
    + destruct (decide (id p' = id p)) as [->|Hne].
      * rewrite lookup_insert_eq. eauto.
      * rewrite lookup_insert_ne by done. by apply IH.
    + rewrite lookup_insert_eq. eauto.
Qed.

(** ** The phases of an iteration

    One iteration of the loop is made of an admission, then either a tick
    of the clock or a time slice for the head of the queue, which is
    followed, when the process is not finished, by a second admission and
    the move of the process to the back of the queue. *)
Section rr_phases.
Context (quantum : Z) (processes : list process).

Definition rr_admission (st : rr_state) : rr_state :=
  let new := arrived (r_time st) (drop (r_i st) processes) in
  {| r_i := r_i st + length new; r_queue := r_queue st ++ new;
     r_time := r_time st; r_remaining := r_remaining st;
     r_finish_time := r_finish_time st; r_gantt := r_gantt st |}.

Definition rr_tick (st : rr_state) : rr_state :=
  {| r_i := r_i st; r_queue := r_queue st; r_time := r_time st + 1;
     r_remaining := r_remaining st;
     r_finish_time := r_finish_time st; r_gantt := r_gantt st |}.

(** The slice given to [p], the head of the queue [p :: rest], of which
    [rem] remains; [p] stays at the head when it is not finished. *)
Definition rr_slice (st : rr_state) (p : process) (rest : list process)
    (rem : Z) : rr_state :=
  let exec_time := Z.min quantum rem in
  let finish := r_time st + exec_time in
  {| r_i := r_i st;
     r_queue := if bool_decide (rem - exec_time > 0) then p :: rest else rest;
     r_time := finish;
     r_remaining := <[id p := rem - exec_time]> (r_remaining st);
     r_finish_time :=
       if bool_decide (rem - exec_time > 0) then r_finish_time st
       else <[id p := finish]> (r_finish_time st);
     r_gantt := r_gantt st ++ [(id p, r_time st, finish)] |}.

Definition rr_requeue (st : rr_state) : rr_state :=
  {| r_i := r_i st;
     r_queue := match r_queue st with p :: rest => rest ++ [p] | [] => [] end;
     r_time := r_time st; r_remaining := r_remaining st;
     r_finish_time := r_finish_time st; r_gantt := r_gantt st |}.

Lemma rr_body_phases st :
  rr_body quantum processes st =
    match r_queue (rr_admission st) with
    | [] => Done (rr_tick (rr_admission st))
    | p :: rest =>
        rem ←! getitem (r_remaining st) (id p);
        Done (if bool_decide (rem - Z.min quantum rem > 0)
              then rr_requeue (rr_admission (rr_slice (rr_admission st) p rest rem))
              else rr_slice (rr_admission st) p rest rem)
    end.
Proof.
  unfold rr_body. rewrite admission_arrived. unfold rr_admission at 1. simpl.
  destruct (r_queue st ++ _) as [|p rest] eqn:Hq.
  - unfold rr_tick, rr_admission. simpl. by rewrite ?Hq.
  - destruct (getitem _ _) as [rem| |]; simpl; [|done..].
    case_bool_decide as Hrem.
    + rewrite admission_arrived. unfold rr_requeue, rr_admission, rr_slice. simpl.
      rewrite ?Hq. simpl. by rewrite bool_decide_true by done.
    + unfold rr_slice, rr_admission. simpl. rewrite ?Hq.
      by rewrite bool_decide_false by done.
Qed.

Lemma arrived_take time i :
  let new := arrived time (drop i processes) in
  take (i + length new) processes = take i processes ++ new ∧
  new ++ drop (i + length new) processes = drop i processes ∧
  ((i ≤ length processes)%nat → (i + length new ≤ length processes)%nat).
Proof.
  intros new.
  pose proof (arrived_split time (drop i processes)) as Hsplit. fold new in Hsplit.
  rewrite drop_drop in Hsplit.
  pose proof (arrived_length time (drop i processes)) as Hlen. fold new in Hlen.
  rewrite length_drop in Hlen. split; [|split; [done|lia]].
  rewrite <- take_take_drop. f_equal. rewrite <- Hsplit at 1.
  by rewrite take_app_length.
Qed.
End rr_phases.

(** ** Termination on any input, for a quantum of at least 1 *)
Section rr_safety.
Context (quantum : Z) (processes : list process).

(** The distance to the next arrival, when the queue is empty. *)
Definition rr_idle (st : rr_state) : nat :=
  match drop (r_i st) processes with
  | p :: _ => Z.to_nat (arrival p - r_time st)
  | [] => 0
  end.

Definition rr_unfinished (st : rr_state) : nat :=
  (length processes - r_i st + length (r_queue st) +
   total_remaining (r_remaining st))%nat.

(** What every iteration keeps, whatever the input: the index is in range,
    the queue holds input processes, every id has a [remaining] entry, and
    an admitted process is in the queue or has a [finish_time] entry. *)
Record rr_safe (st : rr_state) : Prop := {
  rrs_bound : (r_i st ≤ length processes)%nat;
  rrs_queue : ∀ p, p ∈ r_queue st → p ∈ processes;
  rrs_remaining : ∀ p, p ∈ processes → is_Some (r_remaining st !! id p);
  rrs_finished :
    ∀ p, p ∈ take (r_i st) processes →
         p ∈ r_queue st ∨ is_Some (r_finish_time st !! id p)
}.

Lemma rr_safe_init : rr_safe (rr_init processes).
Proof.
  split; simpl.
  - lia.
  - intros p Hp. by apply elem_of_nil in Hp.
  - apply remaining_init_lookup.
  - intros p Hp. by apply elem_of_nil in Hp.
Qed.

Lemma rr_safe_admission st : rr_safe st → rr_safe (rr_admission processes st).
Proof.
  intros [Hb Hq Hr Hf].
  destruct (arrived_take processes (r_time st) (r_i st)) as (Htake & Hdrop & Hlen).
  split; simpl.
  - by apply Hlen.
  - intros p [Hp|Hp]%elem_of_app; [by apply Hq|].
    apply (subseteq_drop (r_i st) processes). rewrite <- Hdrop.
    apply elem_of_app. by left.
  - done.
  - intros p. rewrite Htake. intros [Hp|Hp]%elem_of_app.
    + destruct (Hf p Hp) as [?|?]; [left|right]; set_solver.
    + left. set_solver.
Qed.

Lemma rr_unfinished_admission st :
  (r_i st ≤ length processes)%nat →
  rr_unfinished (rr_admission processes st) = rr_unfinished st.
Proof.
  intros Hb.
  destruct (arrived_take processes (r_time st) (r_i st)) as (_ & _ & Hlen).
  unfold rr_unfinished. simpl. rewrite length_app. specialize (Hlen Hb). lia.
Qed.

Lemma rr_safe_tick st : rr_safe st → rr_safe (rr_tick st).
Proof. intros []. by split. Qed.

Lemma rr_safe_requeue st : rr_safe st → rr_safe (rr_requeue st).
Proof.
  intros [Hb Hq Hr Hf]. split; simpl; [done| |done|].
  - intros p Hp. apply Hq. destruct (r_queue st); set_solver.
  - intros p Hp. destruct (Hf p Hp) as [?|?]; [left|by right].
    destruct (r_queue st); set_solver.
Qed.

Lemma rr_unfinished_requeue st :
  rr_unfinished (rr_requeue st) = rr_unfinished st.
Proof.
  unfold rr_unfinished. simpl. destruct (r_queue st); [done|].
  rewrite length_app. simpl. lia.
Qed.

Lemma rr_safe_slice st p rest rem :
  rr_safe st → r_queue st = p :: rest →
  rr_safe (rr_slice quantum st p rest rem).
Proof.
  intros [Hb Hq Hr Hf] Hqueue. rewrite Hqueue in *. split; simpl.
  - done.
  - intros p' Hp'. apply Hq. case_bool_decide; set_solver.
  - intros p' Hp'. apply lookup_insert_is_Some'. right. by apply Hr.
  - intros p' Hp'. case_bool_decide; [by apply Hf|].
    destruct (Hf p' Hp') as [[->|?]%elem_of_cons|?].
    + right. rewrite lookup_insert_eq. eauto.
    + by left.
    + right. apply lookup_insert_is_Some'. by right.
Qed.

Lemma rr_unfinished_slice st p rest rem :
  1 ≤ quantum → r_queue st = p :: rest → r_remaining st !! id p = Some rem →
  (rr_unfinished (rr_slice quantum st p rest rem) < rr_unfinished st)%nat.
Proof.
  intros Hq Hqueue Hrem. unfold rr_unfinished. simpl. rewrite Hqueue.
  pose proof (total_remaining_insert _ _ _ (rem - Z.min quantum rem) Hrem) as Ht.
  case_bool_decide; simpl; lia.
Qed.

Lemma rr_body_decreases st :
  1 ≤ quantum → rr_safe st → rr_cond processes st = true →
  ∃ st', rr_body quantum processes st = Done st' ∧ rr_safe st' ∧
         ((rr_unfinished st' < rr_unfinished st)%nat ∨
          (rr_unfinished st' = rr_unfinished st ∧ (rr_idle st' < rr_idle st)%nat)).
Proof.
  intros Hq Hsafe Hc. rewrite rr_body_phases.
  pose proof (rr_safe_admission st Hsafe) as Hsafe1.
  pose proof (rr_unfinished_admission st (rrs_bound _ Hsafe)) as Hun1.
  destruct (r_queue (rr_admission processes st)) as [|p rest] eqn:Hqueue.
  - eexists. split; [done|]. split; [by apply rr_safe_tick|]. right.
    simpl in Hqueue. apply app_eq_nil in Hqueue as [Hq0 Hnew].
    split.
    { rewrite <- Hun1. done. }
    unfold rr_idle. simpl. rewrite Hnew. simpl. rewrite Nat.add_0_r.
    unfold rr_cond in Hc. rewrite Hq0 in Hc. simpl in Hc.
    rewrite orb_false_r in Hc. apply bool_decide_eq_true in Hc.
    destruct (drop (r_i st) processes) as [|p rest] eqn:Hd.
    { apply (f_equal length) in Hd. rewrite length_drop in Hd. simpl in Hd. lia. }
    pose proof (arrived_rest (r_time st) (p :: rest) p rest) as Hlt.
    rewrite Hnew in Hlt. specialize (Hlt eq_refl). lia.
  - assert (p ∈ processes) as Hp.
    { apply (rrs_queue _ Hsafe1). rewrite Hqueue. left. }
    destruct (rrs_remaining _ Hsafe p Hp) as [rem Hrem].
    unfold getitem. rewrite Hrem. simpl.
    pose proof (rr_safe_slice _ p rest rem Hsafe1 Hqueue) as Hsafe2.
    pose proof (rr_unfinished_slice _ p rest rem Hq Hqueue Hrem) as Hun2.
    eexists. split; [done|]. case_bool_decide.
    + split; [by apply rr_safe_requeue, rr_safe_admission|]. left.
      rewrite rr_unfinished_requeue, rr_unfinished_admission; [lia|].
      apply (rrs_bound _ Hsafe2).
    + split; [done|]. left. lia.
Qed.

Lemma rr_loop_terminates st :
  1 ≤ quantum → rr_safe st →
  ∃ fuel st', rr_loop quantum processes fuel st = Done st'.
Proof.
  intros Hq Hsafe. unfold rr_loop.
  apply (while_terminates _ _ rr_safe rr_unfinished rr_idle); [|done].
  intros s Hs Hc. by apply rr_body_decreases.
Qed.

Lemma rr_safe_body st st' :
  rr_safe st → rr_body quantum processes st = Done st' → rr_safe st'.
Proof.
  intros Hsafe. rewrite rr_body_phases.
  pose proof (rr_safe_admission st Hsafe) as Hsafe1.
  destruct (r_queue (rr_admission processes st)) as [|p rest] eqn:Hqueue.
  - intros [= <-]. by apply rr_safe_tick.
  - destruct (getitem _ _) as [rem| |]; simpl; [|done..].
    pose proof (rr_safe_slice _ p rest rem Hsafe1 Hqueue) as Hsafe2.
    intros [= <-]. case_bool_decide; [|done].
    by apply rr_safe_requeue, rr_safe_admission.
Qed.

(** The closing loop finds every entry it reads. *)
Lemma rr_metrics_total finish_time l :
  (∀ p, p ∈ l → is_Some (finish_time !! id p)) →
  ∃ wt, rr_metrics finish_time l = Done wt.
Proof.
  unfold rr_metrics. generalize (∅ : gmap string Z, ∅ : gmap string Z).
  induction l as [|p l IH]; intros acc Hall; simpl; [eauto|].
  destruct (Hall p) as [ft Hft]; [left|].
  unfold getitem. rewrite Hft. simpl. apply IH. intros p' Hp'. apply Hall. by right.
Qed.

Lemma rr_safe_exit st :
  rr_safe st → rr_cond processes st = false →
  ∀ p, p ∈ processes → is_Some (r_finish_time st !! id p).
Proof.
  intros [Hb Hq Hr Hf] Hc p Hp.
  unfold rr_cond in Hc. apply orb_false_iff in Hc as [Hi Hqueue].
  apply bool_decide_eq_false in Hi.
  apply negb_false_iff, bool_decide_eq_true in Hqueue.
  destruct (Hf p) as [Hin|?]; [|by rewrite Hqueue in Hin; apply elem_of_nil in Hin|done].
  by rewrite take_ge by lia.
Qed.
End rr_safety.

(** [round_robin] returns on every input when the quantum is at least 1. *)
Lemma round_robin_terminates processes quantum :
  1 ≤ quantum → ∃ fuel r, round_robin fuel processes quantum = Done r.
Proof.
  intros Hq.
  destruct (rr_loop_terminates quantum (sorted arrival processes)
              (rr_init (sorted arrival processes)) Hq (rr_safe_init _))
    as (fuel & st & Hloop).
  pose proof Hloop as Hexit.
  apply (while_invariant _ _ (rr_safe (sorted arrival processes))) in Hexit
    as [Hsafe Hc]; [|by intros; eapply rr_safe_body|apply rr_safe_init].
  destruct (rr_metrics_total (r_finish_time st) (sorted arrival processes))
    as [wt Hwt]; [by apply rr_safe_exit|].
  exists fuel. eexists. unfold round_robin. rewrite Hloop. simpl.
  rewrite Hwt. simpl. done.
Qed.

(** ** Valid input: the accounting invariant *)

Lemma remaining_init_unique processes p :
  NoDup (id <$> processes) → p ∈ processes →
  remaining_init processes !! id p = Some (burst p).
Proof.
  unfold remaining_init. generalize (∅ : gmap string Z).
  induction processes as [|p' processes IH] using rev_ind; intros m Hnd Hp.
  - by apply elem_of_nil in Hp.
  - rewrite foldl_snoc. rewrite fmap_app in Hnd.
    apply NoDup_app in Hnd as (Hnd & Hfresh & _).
    apply elem_of_app in Hp as [Hp| ->%list_elem_of_singleton].
    + rewrite lookup_insert_ne; [by apply IH|].
      intros Heq. apply (Hfresh (id p)); [by apply list_elem_of_fmap_2|].
      rewrite <- Heq. simpl. left.
    + by rewrite lookup_insert_eq.
Qed.

Section rr_valid.
Context (quantum : Z) (processes : list process).
Hypothesis Hquantum : 0 < quantum.
Hypothesis Hids : NoDup (id <$> processes).
Hypothesis Hpos : Forall (λ p, 0 < burst p) processes.

(** [fin] lists the finished processes.  A process not yet admitted has
    its whole burst left and no interval; a queued one has arrived, has
    work left, and has been executed for the difference; a finished one
    has been executed for its burst and has its completion time recorded,
    no earlier than arrival + burst. *)
Record rr_inv (st : rr_state) (fin : list process) : Prop := {
  rri_bound : (r_i st ≤ length processes)%nat;
  rri_perm : fin ++ r_queue st ++ drop (r_i st) processes ≡ₚ processes;
  rri_pending :
    ∀ p, p ∈ drop (r_i st) processes →
      r_remaining st !! id p = Some (burst p) ∧ executed (id p) (r_gantt st) = 0;
  rri_queue :
    ∀ p, p ∈ r_queue st →
      ∃ rem, r_remaining st !! id p = Some rem ∧ 0 < rem ∧
             executed (id p) (r_gantt st) = burst p - rem ∧
             arrival p + (burst p - rem) ≤ r_time st;
  rri_finished :
    ∀ p, p ∈ fin →
      r_remaining st !! id p = Some 0 ∧
      executed (id p) (r_gantt st) = burst p ∧
      ∃ f, r_finish_time st !! id p = Some f ∧ arrival p + burst p ≤ f;
  rri_sorted : StronglySorted (λ a b, iv_finish a ≤ iv_start b) (r_gantt st);
  rri_gantt :
    Forall (λ iv, iv_start iv < iv_finish iv ∧ iv_finish iv ≤ r_time st) (r_gantt st)
}.

Lemma rr_inv_init : rr_inv (rr_init processes) [].
Proof.
  split; simpl.
  - lia.
  - by rewrite drop_0.
  - rewrite drop_0. intros p Hp. split; [by apply remaining_init_unique|done].
  - intros p Hp. by apply elem_of_nil in Hp.
  - intros p Hp. by apply elem_of_nil in Hp.
  - constructor.
  - constructor.
Qed.

Lemma rr_inv_admission st fin : rr_inv st fin → rr_inv (rr_admission processes st) fin.
Proof.
  intros [Hb Hperm Hpend Hqueue Hfin Hsorted Hgantt].
  destruct (arrived_take processes (r_time st) (r_i st)) as (Htake & Hdrop & Hlen).
  pose proof (arrived_Forall (r_time st) (drop (r_i st) processes)) as Harr.
  split; simpl; [| | | |done..].
  - by apply Hlen.
  - by rewrite <- app_assoc, Hdrop.
  - intros p Hp. apply Hpend. rewrite <- Hdrop. apply elem_of_app. by right.
  - intros p [Hp|Hp]%elem_of_app; [by apply Hqueue|].
    destruct (Hpend p) as [Hrem Hex].
    { rewrite <- Hdrop. apply elem_of_app. by left. }
    exists (burst p). split; [done|].
    assert (p ∈ processes) as Hin.
    { apply (subseteq_drop (r_i st) processes). rewrite <- Hdrop.
      apply elem_of_app. by left. }
    eapply Forall_forall in Hpos; [|done].
    eapply Forall_forall in Harr; [|done]. simpl in *.
    split; [lia|]. split; lia.
Qed.

Lemma rr_inv_tick st fin : rr_inv st fin → rr_inv (rr_tick st) fin.
Proof.
  intros [Hb Hperm Hpend Hqueue Hfin Hsorted Hgantt].
  split; simpl; [done|done|done| |done|done|].
  - intros p Hp. destruct (Hqueue p Hp) as (rem & ? & ? & ? & ?).
    exists rem. split; [done|]. split; [done|]. split; [done|lia].
  - eapply Forall_impl; [done|]. simpl. intros; lia.
Qed.

Lemma rr_inv_requeue st fin : rr_inv st fin → rr_inv (rr_requeue st) fin.
Proof.
  intros [Hb Hperm Hpend Hqueue Hfin Hsorted Hgantt].
  assert (match r_queue st with p :: rest => rest ++ [p] | [] => [] end ≡ₚ r_queue st)
    as Hrot.
  { destruct (r_queue st) as [|p rest]; [done|].
    by rewrite Permutation_app_comm. }
  split; simpl; [done| |done| |done..].
  - by rewrite Hrot.
  - intros p Hp. apply Hqueue. by rewrite <- Hrot.
Qed.

(** Processes with different places in the partition have different ids. *)
Lemma rr_inv_ids st fin p rest p' :
  rr_inv st fin → r_queue st = p :: rest →
  p' ∈ fin ++ rest ++ drop (r_i st) processes → id p' ≠ id p.
Proof.
  intros Hinv Hq Hp' Heq. pose proof (rri_perm _ _ Hinv) as Hperm.
  rewrite Hq in Hperm.
  assert (p :: fin ++ rest ++ drop (r_i st) processes ≡ₚ processes) as Hperm'.
  { by rewrite Permutation_middle. }
  rewrite <- Hperm' in Hids. simpl in Hids. apply NoDup_cons in Hids as [Hfresh _].
  apply Hfresh. rewrite <- Heq. by apply list_elem_of_fmap_2.
Qed.

Lemma rr_inv_slice st fin p rest :
  rr_inv st fin → r_queue st = p :: rest →
  ∃ rem, r_remaining st !! id p = Some rem ∧ 0 < rem ∧
    ∃ fin', rr_inv (rr_slice quantum st p rest rem) fin'.
Proof.
  intros Hinv Hq. pose proof (λ p', rr_inv_ids st fin p rest p' Hinv Hq) as Hne.
  destruct Hinv as [Hb Hperm Hpend Hqueue Hfin Hsorted Hgantt].
  destruct (Hqueue p) as (rem & Hrem & Hrpos & Hex & Htime); [rewrite Hq; left|].
  exists rem. split; [done|]. split; [done|].
  set (exec_time := Z.min quantum rem).
  assert (0 < exec_time ≤ rem) as Hexec by (unfold exec_time; lia).
  assert (∀ p', id p' ≠ id p →
            executed (id p') (r_gantt st ++ [(id p, r_time st, r_time st + exec_time)])
            = executed (id p') (r_gantt st)) as Hother.
  { intros p' Hp'. rewrite executed_snoc. unfold iv_id. simpl.
    rewrite decide_False; [lia|]. congruence. }
  assert (executed (id p) (r_gantt st ++ [(id p, r_time st, r_time st + exec_time)])
          = burst p - (rem - exec_time)) as Hself.
  { rewrite executed_snoc. unfold iv_id, duration, iv_finish, iv_start. simpl.
    rewrite decide_True by done. lia. }
  assert (StronglySorted (λ a b, iv_finish a ≤ iv_start b)
            (r_gantt st ++ [(id p, r_time st, r_time st + exec_time)])) as Hsorted'.
  { apply finish_sorted_snoc; [done|].
    eapply Forall_impl; [done|]. unfold iv_start. simpl. intros; lia. }
  assert (Forall (λ iv, iv_start iv < iv_finish iv ∧ iv_finish iv ≤ r_time st + exec_time)
            (r_gantt st ++ [(id p, r_time st, r_time st + exec_time)])) as Hgantt'.
  { apply Forall_app. split.
    - eapply Forall_impl; [done|]. simpl. intros; lia.
    - constructor; [|done]. unfold iv_start, iv_finish. simpl. lia. }
  assert (∀ p', p' ∈ drop (r_i st) processes →
            <[id p := rem - exec_time]> (r_remaining st) !! id p' = Some (burst p') ∧
            executed (id p') (r_gantt st ++ [(id p, r_time st, r_time st + exec_time)]) = 0)
    as Hpend'.
  { intros p' Hp'. assert (id p' ≠ id p) as Hn by (apply Hne; set_solver).
    rewrite lookup_insert_ne, Hother by done. by apply Hpend. }
  assert (∀ p', p' ∈ rest →
            ∃ rem', <[id p := rem - exec_time]> (r_remaining st) !! id p' = Some rem' ∧
              0 < rem' ∧
              executed (id p') (r_gantt st ++ [(id p, r_time st, r_time st + exec_time)])
                = burst p' - rem' ∧
              arrival p' + (burst p' - rem') ≤ r_time st + exec_time) as Hrest.
  { intros p' Hp'. assert (id p' ≠ id p) as Hn by (apply Hne; set_solver).
    destruct (Hqueue p') as (rem' & ? & ? & ? & ?); [rewrite Hq; by right|].
    exists rem'. rewrite lookup_insert_ne, Hother by done.
    split; [done|]. split; [done|]. split; [done|lia]. }
  assert (∀ p', p' ∈ fin →
            <[id p := rem - exec_time]> (r_remaining st) !! id p' = Some 0 ∧
            executed (id p') (r_gantt st ++ [(id p, r_time st, r_time st + exec_time)])
              = burst p' ∧
            ∃ f, r_finish_time st !! id p' = Some f ∧ arrival p' + burst p' ≤ f)
    as Hfin'.
  { intros p' Hp'. assert (id p' ≠ id p) as Hn by (apply Hne; set_solver).
    rewrite lookup_insert_ne, Hother by done. by apply Hfin. }
  unfold rr_slice. fold exec_time. case_bool_decide as Hleft.
  - exists fin. split; simpl; [done| |done| |done..].
    + by rewrite Hq in Hperm.
    + intros p' [->|Hp']%elem_of_cons; [|by apply Hrest].
      exists (rem - exec_time). rewrite lookup_insert_eq.
      split; [done|]. split; [lia|]. split; [done|lia].
  - exists (fin ++ [p]). split; simpl; [done| |done|done| |done..].
    + rewrite Hq in Hperm. by rewrite <- app_assoc.
    + intros p' [Hp'| ->%list_elem_of_singleton]%elem_of_app.
      * assert (id p' ≠ id p) as Hn by (apply Hne; set_solver).
        destruct (Hfin' p' Hp') as (? & ? & f & ? & ?).
        split; [done|]. split; [done|].
        exists f. by rewrite lookup_insert_ne.
      * rewrite lookup_insert_eq, Hself. split; [f_equal; lia|]. split; [lia|].
        exists (r_time st + exec_time). rewrite lookup_insert_eq. split; [done|lia].
Qed.

Definition rr_invariant (st : rr_state) : Prop := ∃ fin, rr_inv st fin.

Lemma rr_invariant_body st st' :
  rr_invariant st → rr_body quantum processes st = Done st' → rr_invariant st'.
Proof.
  intros [fin Hinv]. rewrite rr_body_phases.
  apply rr_inv_admission in Hinv.
  destruct (r_queue (rr_admission processes st)) as [|p rest] eqn:Hqueue.
  - intros [= <-]. exists fin. by apply rr_inv_tick.
  - destruct (rr_inv_slice _ fin p rest Hinv Hqueue) as (rem & Hrem & _ & fin' & Hinv').
    simpl in Hrem. unfold getitem. rewrite Hrem. simpl. intros [= <-].
    exists fin'. case_bool_decide; [|done].
    by apply rr_inv_requeue, rr_inv_admission.
Qed.

(** When the loop has returned every process is finished. *)
Lemma rr_invariant_exit st :
  rr_invariant st → rr_cond processes st = false →
  chronological (r_gantt st) ∧
  ∀ p, p ∈ processes →
    executed (id p) (r_gantt st) = burst p ∧
    ∃ f, r_finish_time st !! id p = Some f ∧ arrival p + burst p ≤ f.
Proof.
  intros [fin [Hb Hperm Hpend Hqueue Hfin Hsorted Hgantt]] Hc.
  unfold rr_cond in Hc. apply orb_false_iff in Hc as [Hi Hq].
  apply bool_decide_eq_false in Hi.
  apply negb_false_iff, bool_decide_eq_true in Hq.
  rewrite Hq, drop_ge, !app_nil_r in Hperm by lia. split.
  - apply finish_sorted_chronological; [|done].
    eapply Forall_impl; [done|]. simpl. intros; lia.
  - intros p Hp. rewrite <- Hperm in Hp. destruct (Hfin p Hp) as (_ & ? & ?). done.
Qed.
End rr_valid.

Lemma rr_metrics_spec finish_time l : ∀ wt,
  NoDup (id <$> l) → rr_metrics finish_time l = Done wt →
  dom wt.1 = list_to_set (id <$> l) ∧
  dom wt.2 = list_to_set (id <$> l) ∧
  ∀ p, p ∈ l →
    ∃ f, finish_time !! id p = Some f ∧
         wt.1 !! id p = Some (f - arrival p - burst p) ∧
         wt.2 !! id p = Some (f - arrival p).
Proof.
  unfold rr_metrics. induction l as [|p l IH] using rev_ind; intros wt Hnd.
  - simpl. intros [= <-]. simpl. rewrite dom_empty_L.
    split; [done|]. split; [done|]. intros p Hp. by apply elem_of_nil in Hp.
  - rewrite foldl_snoc. unfold rr_metrics_body at 1.
    destruct (foldl _ _ l) as [wt0| |]; simpl; [|done..].
    unfold getitem. destruct (finish_time !! id p) as [f|] eqn:Hf; simpl; [|done].
    intros [= <-]. simpl.
    rewrite fmap_app in Hnd. apply NoDup_app in Hnd as (Hnd & Hfresh & _).
    destruct (IH wt0 Hnd eq_refl) as (Hd1 & Hd2 & Hl).
    rewrite !dom_insert_L, Hd1, Hd2, fmap_app, list_to_set_app_L. simpl.
    split; [set_solver|]. split; [set_solver|].
    intros p' [Hp'| ->%list_elem_of_singleton]%elem_of_app.
    + assert (id p ≠ id p') as Hne.
      { intros Heq. apply (Hfresh (id p')); [by apply list_elem_of_fmap_2|].
        rewrite <- Heq. simpl. left. }
      rewrite !lookup_insert_ne by done. by apply Hl.
    + exists f. by rewrite !lookup_insert_eq.
Qed.

(** On a valid input with a positive quantum, what [round_robin] returns
    conserves the bursts, is in chronological order and has consistent
    metrics. *)
Lemma round_robin_valid fuel processes quantum r :
  valid processes → 0 < quantum →
  round_robin fuel processes quantum = Done r →
  conserves processes r ∧ chronological r.1.1 ∧ metrics_consistent processes r.
Proof.
  intros Hv%valid_sorted Hq (st & wt & Hloop & Hwt & ->)%round_robin_inv.
  destruct Hv as (Hids & Hpos & _).
  apply (while_invariant _ _ (rr_invariant (sorted arrival processes))) in Hloop
    as [Hinv Hc].
  2: { intros s1 s2 Hs1 _ Hbody. by eapply rr_invariant_body. }
  2: { exists []. by apply rr_inv_init. }
  destruct (rr_invariant_exit _ _ Hinv Hc) as [Hchrono Hall].
  destruct (rr_metrics_spec _ _ _ Hids Hwt) as (Hd1 & Hd2 & Hl).
  simpl. split; [|split; [done|]].
  - intros p Hp. apply (sorted_elem_of arrival) in Hp. by apply Hall.
  - unfold metrics_consistent. simpl.
    rewrite Hd1, Hd2, !(sorted_perm arrival processes).
    split; [done|]. split; [done|].
    intros p Hp. apply (sorted_elem_of arrival) in Hp.
    destruct (Hl p Hp) as (f & Hf & Hw & Ht).
    destruct (Hall p Hp) as (_ & f' & Hf' & Hle).
    assert (f' = f) as -> by congruence.
    eapply Forall_forall in Hpos; [|done]. simpl in Hpos.
    exists (f - arrival p - burst p). split; [done|]. split; [|lia].
    rewrite Ht. f_equal. lia.
Qed.

(** * The four functions on a valid input *)

Lemma example_valid : valid example.
Proof. apply (bool_decide_unpack _). vm_compute. exact I. Qed.

Lemma all_nonpreemptive_intro (P : list process → result → Prop) processes :
  valid processes →
  (∀ r, run_to_completion processes r → P processes r) →
  all_nonpreemptive P processes.
Proof.
  intros Hv HP. split; [|split].
  - by apply HP, fcfs_run_to_completion.
  - destruct (np_schedule_terminates burst processes) as (fuel & r & Hr).
    exists r. split; [by exists fuel|].
    by eapply HP, np_schedule_run_to_completion.
  - destruct (np_schedule_terminates priority processes) as (fuel & r & Hr).
    exists r. split; [by exists fuel|].
    by eapply HP, np_schedule_run_to_completion.
Qed.

Lemma all_four_intro (P : list process → result → Prop) processes quantum :
  valid processes → 0 < quantum →
  (∀ r, run_to_completion processes r → P processes r) →
  (∀ fuel r, round_robin fuel processes quantum = Done r → P processes r) →
  all_four P processes quantum.
Proof.
  intros Hv Hq HP Hrr.
  destruct (all_nonpreemptive_intro P processes Hv HP) as (? & ? & ?).
  split; [done|]. split; [done|]. split; [done|].
  destruct (round_robin_terminates processes quantum) as (fuel & r & Hr); [lia|].
  exists r. split; [by exists fuel|]. by eapply Hrr.
Qed.

(** C5 (as amended): on every valid input whose arrivals and bursts are
    integers (and, for round-robin, a positive integer quantum) each of
    [fcfs], [sjf], [priority_scheduling] and [round_robin] returns a
    timeline in which the durations of the intervals of each process add up
    to its burst. *)
Theorem conservation processes quantum :
  valid processes → 0 < quantum → all_four conserves processes quantum.
Proof.
  intros Hv Hq. apply all_four_intro; [done|done| |].
  - intros r Hr. by apply run_to_completion_conserves.
  - intros fuel r Hr. by destruct (round_robin_valid _ _ _ _ Hv Hq Hr) as (? & ? & ?).
Qed.

Lemma conservation_example :
  valid example ∧ 0 < 2 ∧ all_four conserves example 2.
Proof.
  split; [exact example_valid|]. split; [lia|].
  apply (conservation example 2); [exact example_valid|lia].
Defined.





(** C9 (as amended): on every valid input whose arrivals and bursts are
    integers (and, for round-robin, a positive integer quantum) the two
    mappings returned by each of the four functions are defined exactly on
    the ids of the input, and for every process
    turnaround = waiting + burst with waiting (hence turnaround) not
    negative. *)
Theorem waiting_turnaround_identity processes quantum :
  valid processes → 0 < quantum →
  all_four metrics_consistent processes quantum.
Proof.
  intros Hv Hq. apply all_four_intro; [done|done| |].
  - intros r Hr. apply run_to_completion_metrics; [done|].
    by destruct Hv as (_ & ? & _).
  - intros fuel r Hr. by destruct (round_robin_valid _ _ _ _ Hv Hq Hr) as (? & ? & ?).
Qed.

Lemma waiting_turnaround_identity_example :
  valid example ∧ 0 < 2 ∧ all_four metrics_consistent example 2.
Proof.
  split; [exact example_valid|]. split; [lia|].
  apply (waiting_turnaround_identity example 2); [exact example_valid|lia].
Defined.

(** * Termination and progress *)

Global Instance sum_Z_perm : Proper ((≡ₚ) ==> (=)) sum_Z.
Proof. induction 1; simpl; lia. Qed.

Lemma np_progress_valid key processes : valid processes → np_progress key processes.
Proof.
  intros (Hids & Hpos & _)%valid_sorted k st Hk Hc.
  set (procs := sorted arrival processes) in *.
  apply (loop_state_invariant _ _ (np_invariant procs)) in Hk as [done Hinv].
  2: { intros s1 s2 [done Hinv] _ [= <-]. by eapply np_inv_body. }
  2: { exists []. apply np_inv_init. }
  destruct Hinv as [Hb _ Hperm _].
  destruct (arrived_take procs (n_time st) (n_i st)) as (_ & Hdrop & _).
  unfold np_work.
  destruct (np_body_cases key procs st) as [(p & rest & Hs & ->)|(Hr & Hn & ->)];
    simpl.
  - assert (n_ready st ++ arrived (n_time st) (drop (n_i st) procs) ≡ₚ p :: rest)
      as Hpr by (by rewrite <- Hs, sorted_perm).
    assert (n_ready st ++ drop (n_i st) procs ≡ₚ
              p :: rest ++ drop (n_i st + length (arrived (n_time st)
                                                  (drop (n_i st) procs))) procs)
      as Hsplit.
    { rewrite <- Hdrop at 1. by rewrite app_assoc, Hpr. }
    assert (0 < burst p) as Hp.
    { eapply Forall_forall in Hpos; [done|]. rewrite <- Hperm, Hsplit. set_solver. }
    split; [lia|left]. rewrite Hsplit, fmap_cons.
    change (sum_Z (burst p :: ?l)) with (burst p + sum_Z l). lia.
  - split; [lia|right]. by rewrite Hr.
Qed.

Lemma rr_progress_valid processes quantum :
  valid processes → 0 < quantum → rr_progress processes quantum.
Proof.
  intros (Hids & Hpos & _)%valid_sorted Hq k st Hk Hc.
  set (procs := sorted arrival processes) in *.
  apply (loop_state_invariant _ _ (rr_invariant procs)) in Hk as [fin Hinv].
  2: { intros s1 s2 Hs1 _ Hbody. by eapply rr_invariant_body. }
  2: { exists []. by apply rr_inv_init. }
  rewrite rr_body_phases. apply rr_inv_admission in Hinv; [|done].
  destruct (r_queue (rr_admission procs st)) as [|p rest] eqn:Hqueue.
  - eexists. split; [done|]. simpl. split; [lia|by right].
  - destruct (rr_inv_slice quantum procs Hq Hids Hpos _ fin p rest Hinv Hqueue)
      as (rem & Hrem & Hrpos & _).
    simpl in Hrem. unfold getitem. rewrite Hrem. simpl.
    eexists. split; [done|].
    pose proof (total_remaining_insert _ _ _ (rem - Z.min quantum rem) Hrem) as Ht.
    case_bool_decide; simpl; (split; [lia|left; lia]).
Qed.

(** C4 (as amended): on every valid input whose arrivals, bursts and
    quantum are integers each of the four functions returns.  [fcfs] is a
    loop over the finite process list.  Each of the other three returns the
    state in which its [while] loop stops, and in that loop every iteration
    strictly increases the clock, and strictly decreases the work left
    whenever it runs a process; so every iteration strictly decreases the
    work left or strictly increases the clock. *)
Theorem scheduling_terminates processes quantum :
  valid processes → 0 < quantum →
  (∃ r, fcfs processes = r) ∧
  (∃ r K, sjf K processes = Done r ∧ np_stops burst processes K r) ∧
  (∃ r K, priority_scheduling K processes = Done r ∧
          np_stops priority processes K r) ∧
  (∃ r K, round_robin K processes quantum = Done r ∧
          rr_stops processes quantum K r) ∧
  np_progress burst processes ∧
  np_progress priority processes ∧
  rr_progress processes quantum.
Proof.
  intros Hv Hq. split; [by eexists|].
  split.
  { destruct (np_schedule_terminates burst processes) as (fuel & r & Hr).
    destruct (np_schedule_stops _ _ _ _ Hr) as (K & HK & Hstops). by exists r, K. }
  split.
  { destruct (np_schedule_terminates priority processes) as (fuel & r & Hr).
    destruct (np_schedule_stops _ _ _ _ Hr) as (K & HK & Hstops). by exists r, K. }
  split.
  { destruct (round_robin_terminates processes quantum) as (fuel & r & Hr); [lia|].
    destruct (round_robin_stops _ _ _ _ Hr) as (K & HK & Hstops). by exists r, K. }
  split; [by apply np_progress_valid|].
  split; [by apply np_progress_valid|by apply rr_progress_valid].
Qed.

Lemma scheduling_terminates_example :
  valid example ∧ 0 < 2 ∧
  (∃ r, fcfs example = r) ∧
  (∃ r K, sjf K example = Done r ∧ np_stops burst example K r) ∧
  (∃ r K, priority_scheduling K example = Done r ∧
          np_stops priority example K r) ∧
  (∃ r K, round_robin K example 2 = Done r ∧ rr_stops example 2 K r) ∧
  np_progress burst example ∧
  np_progress priority example ∧
  rr_progress example 2.
Proof.
  split; [exact example_valid|]. split; [lia|].
  apply (scheduling_terminates example 2); [exact example_valid|lia].
Defined.

(** * Inputs that are not valid *)

Lemma invalid_example_invalid : ¬ valid invalid_example.
Proof. intros (_ & Hpos & _). apply Forall_cons in Hpos as [Hpos _]. simpl in Hpos. lia. Qed.

(** C2 (as stated) fails: the list has a zero burst, a negative arrival
    and a repeated id, and each of the four functions returns a result on
    it instead of failing. *)
Lemma invalid_input_accepted :
  ¬ valid invalid_example ∧
  fcfs invalid_example
    = ([("P1", 0, 0); ("P1", 0, 1)], {[ "P1" := 0 ]}, {[ "P1" := 1 ]}) ∧
  sjf 2 invalid_example
    = Done ([("P1", 0, 0); ("P1", 0, 1)], {[ "P1" := 0 ]}, {[ "P1" := 1 ]}) ∧
  priority_scheduling 2 invalid_example
    = Done ([("P1", 0, 0); ("P1", 0, 1)], {[ "P1" := 0 ]}, {[ "P1" := 1 ]}) ∧
  round_robin 2 invalid_example 2
    = Done ([("P1", 0, 1); ("P1", 1, 1)], {[ "P1" := 0 ]}, {[ "P1" := 1 ]}).
Proof.
  split; [exact invalid_example_invalid|].
  split; [vm_compute; reflexivity|]. split; [vm_compute; reflexivity|].
  split; vm_compute; reflexivity.
Qed.

(** C2 (as amended): an invalid process record is not rejected.  On every
    process list with integer fields that is not valid (a burst of 0 or
    less, a negative arrival, or two records with the same id), [fcfs],
    [sjf] and [priority_scheduling] return a schedule result instead of
    failing, and so does [round_robin] when the quantum is an integer of at
    least 1. *)
Theorem no_input_validation processes quantum :
  ¬ valid processes → 1 ≤ quantum →
  (∃ r, fcfs processes = r) ∧
  (∃ r, sjf_returns processes r) ∧
  (∃ r, priority_returns processes r) ∧
  (∃ r, rr_returns processes quantum r).
Proof.
  intros _ Hq. split; [by eexists|].
  split; [destruct (np_schedule_terminates burst processes) as (fuel & r & Hr);
          by exists r, fuel|].
  split; [destruct (np_schedule_terminates priority processes) as (fuel & r & Hr);
          by exists r, fuel|].
  destruct (round_robin_terminates processes quantum) as (fuel & r & Hr);
    [lia|by exists r, fuel].
Qed.

Lemma no_input_validation_example :
  ¬ valid invalid_example ∧ 1 ≤ 2 ∧
  (∃ r, fcfs invalid_example = r) ∧
  (∃ r, sjf_returns invalid_example r) ∧
  (∃ r, priority_returns invalid_example r) ∧
  (∃ r, rr_returns invalid_example 2 r).
Proof.
  split; [exact invalid_example_invalid|]. split; [lia|].
  apply (no_input_validation invalid_example 2);
    [exact invalid_example_invalid|lia].
Defined.

(** * A quantum that is not positive *)
Section rr_stuck.
Context (quantum : Z) (processes : list process).
Hypothesis Hquantum : quantum ≤ 0.




End rr_stuck.






(** * The selection rule of [sjf] and [priority_scheduling] *)

Lemma filter_sublist_mono {A} (P : A → Prop) `{!∀ x, Decision (P x)} (l1 l2 : list A) :
  l1 `sublist_of` l2 → filter P l1 `sublist_of` filter P l2.
Proof.
  induction 1 as [|x l1 l2 Hl IH|x l1 l2 Hl IH]; [done| |];
    rewrite ?filter_cons; destruct (decide (P x)); try done.
  - by apply sublist_skip.
  - by apply sublist_cons.
Qed.

Lemma StronglySorted_precedes {A} (R : relation A) (l : list A) x y :
  StronglySorted R l → precedes l x y → R x y.
Proof.
  unfold precedes. induction 1 as [|z l Hs IH Hz]; intros Hsub.
  - by apply sublist_nil_r in Hsub.
  - inversion Hsub as [|? ? ? Hsub'|? ? ? Hsub']; subst.
    + apply singleton_sublist_l in Hsub'. by eapply Forall_forall in Hz.
    + by apply IH.
Qed.

Lemma StronglySorted_drop {A} (R : relation A) (l : list A) i :
  StronglySorted R l → StronglySorted R (drop i l).
Proof.
  intros Hs. rewrite <- (take_drop i l) in Hs. by apply StronglySorted_app_1_r in Hs.
Qed.

(** The order of a stably sorted list: by key, then by place in the
    original list. *)
Lemma sorted_precedes {A} (key : A → Z) (l : list A) x y :
  precedes (sorted key l) x y →
  key x < key y ∨ (key x = key y ∧ precedes l x y).
Proof.
  intros Hsub.
  pose proof (StronglySorted_precedes _ _ _ _ (sorted_sorted key l) Hsub) as Hle.
  simpl in Hle. destruct (decide (key x = key y)) as [Heq|Hne]; [right|left; lia].
  split; [done|]. unfold precedes in *.
  apply (filter_sublist_mono (λ z, key z = key y)) in Hsub.
  rewrite sorted_stable in Hsub. rewrite !filter_cons in Hsub.
  rewrite decide_True in Hsub by done. rewrite decide_True in Hsub by done.
  etrans; [exact Hsub|]. apply sublist_filter.
Qed.

Section np_selection.
Context (key : process → Z) (input : list process).
Let processes := sorted arrival input.

(** Processes with the same key are in the ready list in the order they
    have in the process list. *)
Definition np_stable (st : np_state) : Prop :=
  ∀ b, filter (λ y, key y = b) (n_ready st) `sublist_of` take (n_i st) processes.

Lemma np_stable_body st : np_stable st → np_stable (np_body key processes st).
Proof.
  intros Hst b.
  destruct (arrived_take processes (n_time st) (n_i st)) as (Htake & _ & _).
  destruct (np_body_cases key processes st) as [(p & rest & Hs & ->)|(Hr & Hn & ->)];
    simpl.
  - rewrite Htake.
    etrans; [|apply sublist_app; [apply (Hst b)|
                                  apply (sublist_filter (λ y, key y = b))]].
    rewrite <- filter_app, <- (sorted_stable key b (n_ready st ++ _)), Hs.
    rewrite (filter_cons _ p). destruct (decide _); [by apply sublist_cons|done].
  - apply sublist_nil_l.
Qed.

Lemma np_selection_holds : np_selection key input.
Proof.
  unfold np_selection. cbv zeta. fold processes. intros k st Hk Hc.
  apply (loop_state_invariant _ _ np_stable) in Hk as Hst.
  2: { intros s1 s2 Hs1 _ [= <-]. by apply np_stable_body. }
  2: { intros b. simpl. apply sublist_nil_l. }
  pose proof (sorted_sorted arrival input) as Hsorted. fold processes in Hsorted.
  destruct (arrived_sorted (n_time st) (drop (n_i st) processes)) as [Hnew Hrest];
    [by apply StronglySorted_drop|].
  destruct (arrived_take processes (n_time st) (n_i st)) as (Htake & _ & _).
  rewrite drop_drop in Hrest. simpl. rewrite <- Hnew, <- Hrest.
  destruct (np_body_cases key processes st) as [(p & rest & Hs & ->)|(Hr & Hn & ->)];
    simpl.
  - split; [done|].
    assert (n_ready st ++ arrived (n_time st) (drop (n_i st) processes) ≡ₚ p :: rest)
      as Hpr by (by rewrite <- Hs, sorted_perm).
    destruct (n_ready st ++ arrived (n_time st) (drop (n_i st) processes))
      as [|q ready] eqn:Hready; [by apply Permutation_nil_cons in Hpr|].
    rewrite <- Hready in *. clear q ready Hready.
    exists p. split; [done|]. split; [done|]. split; [done|].
    intros r Hr. unfold prefers.
    assert (key p ≤ key r) as Hle.
    { eapply sorted_head_least; [done|]. rewrite Hpr. by right. }
    destruct (decide (key p = key r)) as [Heq|Hne]; [right|left; lia].
    split; [done|].
    assert (precedes processes p r) as Hprec.
    { unfold precedes. etrans; [|apply (sublist_take _ (n_i st + length
        (arrived (n_time st) (drop (n_i st) processes))))].
      rewrite Htake.
      etrans; [|apply sublist_app; [apply (Hst (key p))|
                                    apply (sublist_filter (λ y, key y = key p))]].
      rewrite <- filter_app, <- (sorted_stable key (key p) (n_ready st ++ _)), Hs.
      rewrite filter_cons, decide_True by done. apply sublist_skip.
      apply singleton_sublist_l, list_elem_of_filter. by split. }
    apply sorted_precedes in Hprec as [?|[? ?]]; [by left|right; by split].
  - split; [by rewrite Hn, Nat.add_0_r|]. by rewrite Hr, Hn.
Qed.
End np_selection.



(** * Round-robin with a quantum no smaller than any burst *)

Lemma arrived_idem time pending :
  arrived time (drop (length (arrived time pending)) pending) = [].
Proof.
  induction pending as [|p pending IH]; simpl; [done|].
  case_bool_decide as Hp; simpl; [done|]. by rewrite bool_decide_false.
Qed.

Lemma NoDup_fmap_eq {A B} (f : A → B) (l : list A) x y :
  NoDup (f <$> l) → x ∈ l → y ∈ l → f x = f y → x = y.
Proof.
  induction l as [|z l IH]; simpl; intros Hnd Hx Hy Heq.
  - by apply elem_of_nil in Hx.
  - apply NoDup_cons in Hnd as [Hfresh Hnd].
    apply elem_of_cons in Hx as [->|Hx]; apply elem_of_cons in Hy as [->|Hy].
    + done.
    + destruct Hfresh. rewrite Heq. by apply list_elem_of_fmap_2.
    + destruct Hfresh. rewrite <- Heq. by apply list_elem_of_fmap_2.
    + by apply IH.
Qed.

Section rr_degenerate.
Context (quantum : Z) (processes : list process).
Hypothesis Hids : NoDup (id <$> processes).
Hypothesis Hpos : Forall (λ p, 0 < burst p) processes.
Hypothesis Hquantum : Forall (λ p, burst p ≤ quantum) processes.

(** [run] is the list of the processes that have been run, and
    [fcfs_after run] the state of [fcfs] after its loop has dealt with
    them.  The loop of [round_robin] has run them in the same order, with
    the same intervals; its clock can only be ahead on idle ticks, and then
    not beyond the next arrival. *)
Definition fcfs_after (run : list process) : fcfs_state :=
  foldl fcfs_body fcfs_init run.

Record rr_fcfs (st : rr_state) (run : list process) : Prop := {
  rf_bound : (r_i st ≤ length processes)%nat;
  rf_split : run ++ r_queue st ++ drop (r_i st) processes = processes;
  rf_gantt : r_gantt st = f_gantt (fcfs_after run);
  rf_clock : f_time (fcfs_after run) ≤ r_time st;
  rf_idle :
    f_time (fcfs_after run) < r_time st →
    ∃ p rest, r_queue st ++ drop (r_i st) processes = p :: rest ∧
              r_time st ≤ arrival p;
  rf_arrived : Forall (λ p, arrival p ≤ r_time st) (r_queue st);
  rf_fresh :
    ∀ p, p ∈ r_queue st ++ drop (r_i st) processes →
         r_remaining st !! id p = Some (burst p);
  rf_finish :
    ∀ p, p ∈ processes →
         f_turnaround (fcfs_after run) !! id p =
           (λ f, f - arrival p) <$> r_finish_time st !! id p
}.

Lemma rr_fcfs_init : rr_fcfs (rr_init processes) [].
Proof.
  split; simpl.
  - lia.
  - by rewrite drop_0.
  - done.
  - done.
  - lia.
  - done.
  - rewrite drop_0. intros p Hp. by apply remaining_init_unique.
  - intros p Hp. by rewrite !lookup_empty.
Qed.

Lemma rr_fcfs_admission st run : rr_fcfs st run → rr_fcfs (rr_admission processes st) run.
Proof.
  intros [Hb Hsplit Hg Hclock Hidle Harr Hfresh Hfin].
  destruct (arrived_take processes (r_time st) (r_i st)) as (_ & Hdrop & Hlen).
  pose proof (arrived_Forall (r_time st) (drop (r_i st) processes)) as Hnew.
  split; simpl.
  - by apply Hlen.
  - by rewrite <- (app_assoc (r_queue st)), Hdrop.
  - done.
  - done.
  - by rewrite <- (app_assoc (r_queue st)), Hdrop.
  - by apply Forall_app.
  - by rewrite <- (app_assoc (r_queue st)), Hdrop.
  - done.
Qed.

Lemma rr_fcfs_tick st run p rest :
  rr_fcfs st run → r_queue st = [] →
  drop (r_i st) processes = p :: rest → r_time st < arrival p →
  rr_fcfs (rr_tick st) run.
Proof.
  intros [Hb Hsplit Hg Hclock Hidle Harr Hfresh Hfin] Hq Hd Hlt.
  split; simpl; try done.
  - lia.
  - intros _. exists p, rest. rewrite Hq, Hd. split; [done|lia].
  - by rewrite Hq.
Qed.

Lemma rr_fcfs_slice st run p rest :
  rr_fcfs st run → r_queue st = p :: rest →
  r_remaining st !! id p = Some (burst p) ∧
  bool_decide (burst p - Z.min quantum (burst p) > 0) = false ∧
  rr_fcfs (rr_slice quantum st p rest (burst p)) (run ++ [p]).
Proof.
  intros [Hb Hsplit Hg Hclock Hidle Harr Hfresh Hfin] Hq. rewrite Hq in *.
  assert (p ∈ processes) as Hp by (rewrite <- Hsplit; set_solver).
  assert (0 < burst p ≤ quantum) as Hburst.
  { eapply Forall_forall in Hpos; [|done].
    eapply Forall_forall in Hquantum; [|done]. simpl in *. lia. }
  assert (Z.min quantum (burst p) = burst p) as Hmin by lia.
  assert (bool_decide (burst p - Z.min quantum (burst p) > 0) = false) as Hdone.
  { apply bool_decide_eq_false. lia. }
  split; [apply Hfresh; left|]. split; [done|].
  apply Forall_cons in Harr as [Hparr Harr].
  assert ((if bool_decide (f_time (fcfs_after run) < arrival p)
           then arrival p else f_time (fcfs_after run)) = r_time st) as Hstart.
  { destruct (decide (f_time (fcfs_after run) < arrival p)) as [Hlt|Hlt].
    - rewrite bool_decide_true by done.
      destruct Hidle as (p' & rest' & [= <- _] & Hle); lia.
    - rewrite bool_decide_false by done.
      destruct (decide (f_time (fcfs_after run) < r_time st)) as [Hahead|]; [|lia].
      destruct (Hidle Hahead) as (p' & rest' & [= <- _] & Hle). lia. }
  assert (∀ p', p' ∈ rest ++ drop (r_i st) processes → id p' ≠ id p) as Hne.
  { intros p' Hp' Heq. rewrite <- Hsplit in Hids. rewrite fmap_app in Hids.
    apply NoDup_app in Hids as (_ & _ & Hnd). simpl in Hnd.
    apply NoDup_cons in Hnd as [Hfresh' _]. apply Hfresh'. rewrite <- Heq.
    by apply list_elem_of_fmap_2. }
  assert (fcfs_after (run ++ [p]) =
            {| f_time := r_time st + burst p;
               f_gantt := f_gantt (fcfs_after run) ++
                            [(id p, r_time st, r_time st + burst p)];
               f_waiting :=
                 <[id p := r_time st - arrival p]> (f_waiting (fcfs_after run));
               f_turnaround :=
                 <[id p := r_time st + burst p - arrival p]>
                   (f_turnaround (fcfs_after run)) |}) as Hafter.
  { unfold fcfs_after. rewrite foldl_snoc. fold (fcfs_after run).
    unfold fcfs_body. by rewrite Hstart. }
  unfold rr_slice. rewrite Hdone, Hmin.
  split; rewrite ?Hafter; simpl.
  - done.
  - by rewrite <- app_assoc.
  - by rewrite Hg.
  - lia.
  - lia.
  - eapply Forall_impl; [done|]. simpl. intros; lia.
  - intros p' Hp'. rewrite lookup_insert_ne by (symmetry; by apply Hne).
    apply Hfresh. by right.
  - intros p' Hp'. destruct (decide (id p' = id p)) as [Heq|Hneq].
    + assert (p' = p) as -> by (by eapply (NoDup_fmap_eq id)).
      by rewrite !lookup_insert_eq.
    + rewrite !lookup_insert_ne by done. by apply Hfin.
Qed.
Definition rr_fcfs_invariant (st : rr_state) : Prop := ∃ run, rr_fcfs st run.

Lemma rr_fcfs_body st st' :
  rr_fcfs_invariant st → rr_cond processes st = true →
  rr_body quantum processes st = Done st' → rr_fcfs_invariant st'.
Proof.
  intros [run Hinv] Hc. rewrite rr_body_phases.
  apply rr_fcfs_admission in Hinv.
  destruct (r_queue (rr_admission processes st)) as [|p rest] eqn:Hqueue.
  - intros [= <-]. exists run.
    pose proof Hqueue as Hq'. simpl in Hq'. apply app_eq_nil in Hq' as [Hq0 Hnew].
    unfold rr_cond in Hc. rewrite Hq0 in Hc. simpl in Hc.
    rewrite orb_false_r in Hc. apply bool_decide_eq_true in Hc.
    destruct (drop (r_i st) processes) as [|p rest] eqn:Hd.
    { apply (f_equal length) in Hd. rewrite length_drop in Hd. simpl in Hd. lia. }
    pose proof (arrived_rest (r_time st) (p :: rest) p rest) as Hlt.
    rewrite Hnew in Hlt. specialize (Hlt eq_refl).
    apply (rr_fcfs_tick _ run p rest); [done|done| |done].
    unfold rr_admission. cbn [r_i]. rewrite Hd, Hnew. cbn [length].
    by rewrite Nat.add_0_r.
  - destruct (rr_fcfs_slice _ run p rest Hinv Hqueue) as (Hrem & Hdone & Hinv').
    simpl in Hrem. unfold getitem. rewrite Hrem. simpl. rewrite Hdone.
    intros [= <-]. by exists (run ++ [p]).
Qed.

Lemma rr_fcfs_exit st :
  rr_fcfs_invariant st → rr_cond processes st = false →
  r_gantt st = f_gantt (fcfs_after processes) ∧
  ∀ p, p ∈ processes →
    f_turnaround (fcfs_after processes) !! id p =
      (λ f, f - arrival p) <$> r_finish_time st !! id p.
Proof.
  intros [run [Hb Hsplit Hg Hclock Hidle Harr Hfresh Hfin]] Hc.
  unfold rr_cond in Hc. apply orb_false_iff in Hc as [Hi Hq].
  apply bool_decide_eq_false in Hi.
  apply negb_false_iff, bool_decide_eq_true in Hq.
  rewrite Hq, drop_ge, !app_nil_r in Hsplit by lia. by subst run.
Qed.
End rr_degenerate.

Lemma map_eq_on_ids (m1 m2 : gmap string Z) (l : list process) :
  dom m1 = list_to_set (id <$> l) → dom m2 = list_to_set (id <$> l) →
  (∀ p, p ∈ l → m1 !! id p = m2 !! id p) → m1 = m2.
Proof.
  intros Hd1 Hd2 Heq. apply map_eq. intros k.
  destruct (decide (k ∈ id <$> l)) as [Hk|Hk].
  - apply list_elem_of_fmap in Hk as (p & -> & Hp). by apply Heq.
  - assert (k ∉ dom m1) as H1 by (rewrite Hd1; set_solver).
    assert (k ∉ dom m2) as H2 by (rewrite Hd2; set_solver).
    apply not_elem_of_dom in H1, H2. congruence.
Qed.

Lemma round_robin_fcfs processes quantum :
  valid processes → Forall (λ p, burst p ≤ quantum) processes →
  rr_returns processes quantum (fcfs processes).
Proof.
  intros Hv Hquantum. destruct (decide (processes = [])) as [->|Hne].
  { by exists 0%nat. }
  assert (1 ≤ quantum) as Hq.
  { destruct Hv as (_ & Hpos & _). destruct processes as [|p0 l]; [done|].
    apply Forall_cons in Hpos as [? _]. apply Forall_cons in Hquantum as [? _]. lia. }
  destruct (round_robin_terminates processes quantum Hq) as (fuel & r & Hr).
  exists fuel. rewrite Hr. f_equal.
  apply round_robin_inv in Hr as (st & wt & Hloop & Hwt & ->).
  pose proof (valid_sorted _ Hv) as (Hids & Hpos & _).
  assert (Forall (λ p, burst p ≤ quantum) (sorted arrival processes)) as Hquantum'
    by (by rewrite sorted_perm).
  apply (while_invariant _ _ (rr_fcfs_invariant (sorted arrival processes))) in Hloop
    as [Hinv Hc].
  2: { intros s1 s2 Hs1 Hc1 Hbody. by eapply rr_fcfs_body. }
  2: { exists []. by apply rr_fcfs_init. }
  destruct (rr_fcfs_exit _ _ Hinv Hc) as [Hgantt Hfin].
  destruct (rr_metrics_spec _ _ _ Hids Hwt) as (Hd1 & Hd2 & Hl).
  destruct (run_to_completion_metrics _ _ (fcfs_run_to_completion _ Hv))
    as (Hfd1 & Hfd2 & Hfl); [by destruct Hv as (_ & ? & _)|].
  unfold fcfs in *. simpl in *. fold (fcfs_after (sorted arrival processes)) in *.
  rewrite (sorted_perm arrival processes) in Hd1, Hd2.
  assert (∀ p, p ∈ processes →
            wt.2 !! id p = f_turnaround (fcfs_after (sorted arrival processes)) !! id p)
    as Hturn.
  { intros p Hp. apply (sorted_elem_of arrival) in Hp.
    destruct (Hl p Hp) as (f & Hf & _ & Ht). by rewrite Hfin, Hf, Ht. }
  f_equal; [f_equal|].
  - done.
  - apply (map_eq_on_ids _ _ processes); [done|done|].
    intros p Hp. destruct (Hfl p Hp) as (w & Hw & Ht & _).
    pose proof (Hturn p Hp) as Heq. rewrite Ht in Heq.
    apply (sorted_elem_of arrival) in Hp.
    destruct (Hl p Hp) as (f & _ & Hw' & Ht'). rewrite Ht' in Heq.
    rewrite Hw, Hw'. f_equal. injection Heq as Heq. lia.
  - apply (map_eq_on_ids _ _ processes); [done|done|]. by apply Hturn.
Qed.

(** C10 (as amended): on every valid input whose arrivals and bursts are
    integers, when the quantum is an integer that is at least every burst,
    [round_robin] returns what [fcfs] returns: the same timeline, the same
    waiting times and the same turnaround times.  (The empty list is
    covered too.) *)
Theorem large_quantum_is_fcfs processes quantum :
  valid processes → Forall (λ p, burst p ≤ quantum) processes →
  ∀ r, rr_returns processes quantum r ↔ r = fcfs processes.
Proof.
  intros Hv Hq r. pose proof (round_robin_fcfs processes quantum Hv Hq) as [fuel Hf].
  split.
  - intros [fuel' Hr]. by eapply round_robin_deterministic.
  - intros ->. by exists fuel.
Qed.

Lemma large_quantum_is_fcfs_example :
  valid example ∧ Forall (λ p, burst p ≤ 8) example ∧
  ∀ r, rr_returns example 8 r ↔ r = fcfs example.
Proof.
  split; [exact example_valid|].
  assert (Forall (λ p, burst p ≤ 8) example) as Hq.
  { unfold example. repeat constructor; simpl; lia. }
  split; [exact Hq|].
  apply (large_quantum_is_fcfs example 8); [exact example_valid|exact Hq].
Defined.

(** * Further properties of the scheduling functions *)

(** ** [round_robin] finds every dictionary entry it reads *)




(** ** The order in which [fcfs] runs the processes *)



(** ** The selection rule of [priority_scheduling] *)

(** X3: on every process list with integer fields [priority_scheduling]
    returns, whatever it returns is the state in which its loop stops, and
    at every decision point of that loop it admits exactly the not yet
    admitted processes whose arrival is at most the clock; when none is
    ready the clock ticks, and otherwise the ready process with the
    smallest priority value is run to completion, ties going to the
    earliest arrival and then to the earliest place in the input. *)
Theorem priority_selection_rule processes :
  (∃ r K, priority_scheduling K processes = Done r ∧
          np_stops priority processes K r) ∧
  (∀ fuel r, priority_scheduling fuel processes = Done r →
     ∃ K, np_stops priority processes K r) ∧
  np_selection priority processes.
Proof.
  split; [|split; [|apply np_selection_holds]].
  - destruct (np_schedule_terminates priority processes) as (fuel & r & Hr).
    destruct (np_schedule_stops _ _ _ _ Hr) as (K & HK & Hstops). by exists r, K.
  - intros fuel r Hr.
    destruct (np_schedule_stops _ _ _ _ Hr) as (K & _ & Hstops). by exists K.
Qed.

(** ** The averages of [show_results] *)







(** X5: for two mappings over the same ids, as the four functions return
    them, the averages of [show_results] fail with [ZeroDivisionError]
    exactly when the mappings are empty; and on the empty process list each
    of the four functions returns the empty timeline with two empty
    mappings, whatever the quantum, so that showing that result fails. *)
Theorem empty_input_behaviour :
  (∀ gantt waiting turnaround,
     dom waiting = dom turnaround →
     (show_results gantt waiting turnaround = ZeroDivisionError ↔ waiting = ∅)) ∧
  fcfs [] = ([], ∅, ∅) ∧
  (∀ fuel, sjf fuel [] = Done ([], ∅, ∅)) ∧
  (∀ fuel, priority_scheduling fuel [] = Done ([], ∅, ∅)) ∧
  (∀ fuel quantum, round_robin fuel [] quantum = Done ([], ∅, ∅)).
Proof.
  split; [|split; [done|split; [by intros []|split; [by intros []|by intros []]]]].
  intros gantt waiting turnaround Hdom. unfold show_results.
  assert (size waiting = size turnaround) as Hsize.
  { by rewrite <- !(size_dom (D:=gset string)), Hdom. }
  rewrite decide_True by done. rewrite <- map_size_empty_iff.
  destruct (decide (size waiting = 0%nat)) as [Hw|Hw]; [done|].
  destruct (division_overflows _ _); [done|].
  destruct (decide (size turnaround = 0%nat)); [lia|].
  by destruct (division_overflows _ _).
Qed.

(** ** The ids given by the "Add Process" button *)

Lemma ui_ids_NoDup n : NoDup (ui_ids n).
Proof.
  unfold ui_ids. apply NoDup_fmap_2_strong; [|apply NoDup_seq].
  intros k1 k2 _ _ Heq. simpl in Heq. injection Heq as Heq.
  apply pretty_nat_inj in Heq. lia.
Qed.

Lemma ui_ids_S n : ui_ids (S n) = ui_ids n ++ ["P" +:+ pretty (n + 1)%nat].
Proof. unfold ui_ids. by rewrite seq_S, fmap_app. Qed.

(** X6: the default process list has the ids P1, P2, P3; and whenever the
    process list has the ids P1, ..., Pn in this order (editing bursts,
    arrivals and priorities keeps them), "Add Process" gives the list the
    ids P1, ..., P(n+1), which are pairwise different: the button never
    creates a duplicate id. *)
Theorem add_process_fresh_id processes :
  id <$> processes = ui_ids (length processes) →
  id <$> add_process processes = ui_ids (length (add_process processes)) ∧
  NoDup (id <$> add_process processes).
Proof.
  intros Hids.
  assert (id <$> add_process processes = ui_ids (length (add_process processes)))
    as Heq.
  { unfold add_process. rewrite fmap_app, length_app, Hids. simpl.
    by rewrite Nat.add_1_r, ui_ids_S, Nat.add_1_r. }
  split; [done|]. rewrite Heq. apply ui_ids_NoDup.
Qed.

Lemma add_process_fresh_id_example :
  id <$> example = ui_ids (length example) ∧
  id <$> add_process example = ui_ids (length (add_process example)) ∧
  NoDup (id <$> add_process example).
Proof.
  assert (id <$> example = ui_ids (length example)) as Hids
    by (vm_compute; reflexivity).
  split; [exact Hids|]. apply (add_process_fresh_id example). exact Hids.
Defined.

(** ** Processes that all arrive at time 0 *)









(** ** The slices of [round_robin] *)

Lemma executed_nonneg pid gantt :
  Forall (λ iv, iv_start iv < iv_finish iv) gantt → 0 ≤ executed pid gantt.
Proof.
  unfold executed, intervals_of.
  induction 1 as [|iv gantt Hiv Hall IH]; [done|].
  rewrite filter_cons. destruct (decide _); [|done].
  rewrite fmap_cons. unfold sum_Z in *. cbn [foldr]. unfold duration at 1. lia.
Qed.

Lemma sum_Z_constant (q : Z) (l : list interval) :
  Forall (λ iv, duration iv = q) l → sum_Z (duration <$> l) = q * Z.of_nat (length l).
Proof.
  induction 1 as [|iv l Hiv Hall IH]; [simpl; lia|].
  rewrite fmap_cons. unfold sum_Z in *. cbn [foldr length]. lia.
Qed.

Section rr_slices.
Context (quantum : Z) (processes : list process).
Hypothesis Hquantum : 0 < quantum.
Hypothesis Hids : NoDup (id <$> processes).
Hypothesis Hpos : Forall (λ p, 0 < burst p) processes.

(** Every interval is a bounded slice of an input process that has
    arrived; an unfinished process has no completion time and only full
    slices; the completion time of a finished process is the finish of its
    last slice, and the slices before it are full. *)
Record rr_extra (st : rr_state) : Prop := {
  rx_intervals :
    Forall (λ iv, ∃ p, p ∈ processes ∧ iv_id iv = id p ∧
                       arrival p ≤ iv_start iv ∧ 0 < duration iv ≤ quantum)
           (r_gantt st);
  rx_unfinished :
    ∀ p, p ∈ r_queue st ++ drop (r_i st) processes →
      r_finish_time st !! id p = None ∧
      Forall (λ iv, duration iv = quantum) (intervals_of (id p) (r_gantt st));
  rx_finished :
    ∀ p f, p ∈ processes → r_finish_time st !! id p = Some f →
      ∃ full last,
        intervals_of (id p) (r_gantt st) = full ++ [last] ∧
        Forall (λ iv, duration iv = quantum) full ∧ iv_finish last = f
}.

Lemma rr_extra_init : rr_extra (rr_init processes).
Proof.
  split; simpl.
  - constructor.
  - intros p _. split; [apply lookup_empty|constructor].
  - intros p f _ Hf. by rewrite lookup_empty in Hf.
Qed.

Lemma rr_extra_admission st : rr_extra st → rr_extra (rr_admission processes st).
Proof.
  intros [Hiv Hun Hfin].
  destruct (arrived_take processes (r_time st) (r_i st)) as (_ & Hdrop & _).
  split; simpl; [done| |done].
  intros p Hp. apply Hun. by rewrite <- (app_assoc (r_queue st)), Hdrop in Hp.
Qed.

Lemma rr_extra_tick st : rr_extra st → rr_extra (rr_tick st).
Proof. intros []. by split. Qed.

Lemma rr_extra_requeue st : rr_extra st → rr_extra (rr_requeue st).
Proof.
  intros [Hiv Hun Hfin]. split; simpl; [done| |done].
  intros p Hp. apply Hun. destruct (r_queue st) as [|p' rest]; [done|].
  set_solver.
Qed.

Lemma rr_extra_slice st fin p rest rem :
  rr_inv processes st fin → rr_extra st → r_queue st = p :: rest →
  r_remaining st !! id p = Some rem →
  rr_extra (rr_slice quantum st p rest rem).
Proof.
  intros Hinv [Hiv Hun Hfin] Hq Hrem.
  pose proof (λ p', rr_inv_ids processes Hids st fin p rest p' Hinv Hq) as Hne.
  destruct (rri_queue _ _ _ Hinv p) as (rem' & Hrem' & Hrpos & Hex & Htime);
    [rewrite Hq; left|].
  assert (rem' = rem) as -> by congruence.
  assert (p ∈ processes) as Hp.
  { rewrite <- (rri_perm _ _ _ Hinv), Hq. set_solver. }
  assert (arrival p ≤ r_time st) as Harr.
  { pose proof (executed_nonneg (id p) (r_gantt st)) as Hnn.
    rewrite Hex in Hnn. assert (0 ≤ burst p - rem); [|lia]. apply Hnn.
    eapply Forall_impl; [exact (rri_gantt _ _ _ Hinv)|]. simpl. intros; lia. }
  destruct (Hun p) as [Hnone Hfull]; [rewrite Hq; left|].
  set (exec_time := Z.min quantum rem).
  set (iv := (id p, r_time st, r_time st + exec_time)).
  assert (duration iv = exec_time) as Hdur.
  { unfold duration, iv, iv_finish, iv_start. simpl. lia. }
  assert (∀ p', id p' ≠ id p →
            intervals_of (id p') (r_gantt st ++ [iv]) = intervals_of (id p') (r_gantt st))
    as Hother.
  { intros p' Hp'. rewrite intervals_of_snoc. unfold iv_id, iv. simpl.
    rewrite decide_False by congruence. by rewrite app_nil_r. }
  assert (intervals_of (id p) (r_gantt st ++ [iv]) = intervals_of (id p) (r_gantt st) ++ [iv])
    as Hself.
  { rewrite intervals_of_snoc. unfold iv_id, iv. simpl. by rewrite decide_True. }
  unfold rr_slice. fold exec_time. fold iv. split; simpl.
  - apply Forall_app. split; [done|]. constructor; [|done].
    exists p. rewrite Hdur. unfold iv_id, iv_start, iv. simpl.
    split; [done|]. split; [done|]. split; [done|]. unfold exec_time. lia.
  - intros p' Hp'.
    destruct (decide (id p' = id p)) as [Heq|Hneq].
    + assert (p' = p) as ->.
      { eapply (NoDup_fmap_eq id); [exact Hids| |done..].
        rewrite <- (rri_perm _ _ _ Hinv), Hq.
        case_bool_decide; set_solver. }
      case_bool_decide as Hleft.
      * split; [done|]. rewrite Hself. apply Forall_app. split; [done|].
        constructor; [|done]. rewrite Hdur. unfold exec_time. lia.
      * exfalso. apply (Hne p); [|done]. set_solver.
    + rewrite Hother by done.
      assert (p' ∈ r_queue st ++ drop (r_i st) processes) as Hin.
      { rewrite Hq. case_bool_decide; set_solver. }
      destruct (Hun p' Hin) as [Hn Hf]. split; [|done].
      case_bool_decide; [done|]. by rewrite lookup_insert_ne.
  - intros p' f Hp' Hf.
    destruct (decide (id p' = id p)) as [Heq|Hneq].
    + assert (p' = p) as -> by (by eapply (NoDup_fmap_eq id)).
      case_bool_decide as Hleft; [congruence|].
      rewrite lookup_insert_eq in Hf. injection Hf as <-.
      exists (intervals_of (id p) (r_gantt st)), iv. by rewrite Hself.
    + rewrite Hother by done. apply Hfin; [done|].
      case_bool_decide; [done|]. by rewrite lookup_insert_ne in Hf.
Qed.

Definition rr_slices_invariant (st : rr_state) : Prop :=
  rr_invariant processes st ∧ rr_extra st.

Lemma rr_slices_invariant_body st st' :
  rr_slices_invariant st → rr_body quantum processes st = Done st' →
  rr_slices_invariant st'.
Proof.
  intros [Hinv Hextra] Hbody.
  split; [by eapply rr_invariant_body|].
  destruct Hinv as [fin Hinv]. revert Hbody. rewrite rr_body_phases.
  apply rr_inv_admission in Hinv; [|done]. apply rr_extra_admission in Hextra.
  destruct (r_queue (rr_admission processes st)) as [|p rest] eqn:Hqueue.
  - intros [= <-]. by apply rr_extra_tick.
  - destruct (rr_inv_slice quantum processes Hquantum Hids Hpos _ fin p rest Hinv Hqueue)
      as (rem & Hrem & _ & _).
    pose proof (rr_extra_slice _ fin p rest rem Hinv Hextra Hqueue Hrem) as Hextra'.
    simpl in Hrem. unfold getitem. rewrite Hrem. simpl. intros [= <-].
    case_bool_decide; [|done]. by apply rr_extra_requeue, rr_extra_admission.
Qed.
End rr_slices.

Lemma round_robin_slices fuel processes quantum r :
  valid processes → 0 < quantum →
  round_robin fuel processes quantum = Done r →
  slices_bounded quantum processes r ∧ sliced quantum processes r ∧
  completion_time processes r.
Proof.
  intros Hv%valid_sorted Hq (st & wt & Hloop & Hwt & ->)%round_robin_inv.
  destruct Hv as (Hids & Hpos & _).
  set (procs := sorted arrival processes) in *.
  apply (while_invariant _ _ (rr_slices_invariant quantum procs)) in Hloop
    as [[Hinv Hextra] Hc].
  2: { intros s1 s2 Hs1 _ Hbody. by eapply rr_slices_invariant_body. }
  2: { split; [exists []; by apply rr_inv_init|apply rr_extra_init]. }
  destruct (rr_invariant_exit _ _ Hinv Hc) as [_ Hall].
  destruct (rr_metrics_spec _ _ _ Hids Hwt) as (_ & _ & Hl).
  destruct Hextra as [Hiv _ Hfin]. simpl.
  assert (∀ p, p ∈ processes →
            ∃ full last f,
              intervals_of (id p) (r_gantt st) = full ++ [last] ∧
              Forall (λ iv, duration iv = quantum) full ∧
              iv_finish last = f ∧ r_finish_time st !! id p = Some f ∧
              0 < duration last ≤ quantum ∧
              burst p = quantum * Z.of_nat (length full) + duration last) as Hshape.
  { intros p Hp%(sorted_elem_of arrival). fold procs in Hp.
    destruct (Hall p Hp) as (Hex & f & Hf & _).
    destruct (Hfin p f Hp Hf) as (full & last & Heq & Hfull & Hlast).
    exists full, last, f. split; [done|]. split; [done|]. split; [done|].
    split; [done|].
    assert (last ∈ r_gantt st) as Hin.
    { assert (last ∈ intervals_of (id p) (r_gantt st)) as Hin'
        by (rewrite Heq; set_solver).
      unfold intervals_of in Hin'. by apply list_elem_of_filter in Hin' as [_ ?]. }
    eapply Forall_forall in Hiv; [|exact Hin].
    destruct Hiv as (_ & _ & _ & _ & Hd). split; [done|].
    rewrite <- Hex. unfold executed. rewrite Heq, fmap_app, sum_Z_app.
    rewrite (sum_Z_constant quantum) by done. simpl. lia. }
  split; [|split].
  - eapply Forall_impl; [exact Hiv|]. simpl.
    intros iv (p & Hp & Hrest). exists p. split; [|done].
    by apply (proj1 (sorted_elem_of arrival p processes)).
  - intros p Hp. destruct (Hshape p Hp) as (full & last & f & ? & ? & _ & _ & ? & ?).
    by exists full, last.
  - intros p Hp. destruct (Hshape p Hp) as (full & last & f & Heq & _ & <- & Hf & _).
    apply (sorted_elem_of arrival) in Hp.
    destruct (Hl p Hp) as (f' & Hf' & Hw & Ht). fold procs in Hf'.
    assert (f' = iv_finish last) as -> by congruence.
    exists last. simpl. rewrite Heq, last_snoc. done.
Qed.

(** X8: on every valid process list with integer arrivals and bursts and
    a positive integer quantum, every interval of the timeline that
    [round_robin] returns is a slice of an input process, starts no earlier
    than that process arrives, and lasts more than 0 and at most one
    quantum. *)
Theorem round_robin_slices_bounded processes quantum :
  valid processes → 0 < quantum →
  ∃ r, rr_returns processes quantum r ∧ slices_bounded quantum processes r.
Proof.
  intros Hv Hq.
  destruct (round_robin_terminates processes quantum) as (fuel & r & Hr); [lia|].
  exists r. split; [by exists fuel|].
  by destruct (round_robin_slices _ _ _ _ Hv Hq Hr) as (? & ? & ?).
Qed.

Lemma round_robin_slices_bounded_example :
  valid example ∧ 0 < 2 ∧
  ∃ r, rr_returns example 2 r ∧ slices_bounded 2 example r.
Proof.
  split; [exact example_valid|]. split; [lia|].
  apply (round_robin_slices_bounded example 2); [exact example_valid|lia].
Defined.

(** X9: on every valid process list with integer arrivals and bursts and
    a positive integer quantum, each process gets in the timeline of
    [round_robin] a number of slices of exactly one quantum followed by one
    last slice of at most one quantum, and their durations make up the
    burst: a process of burst [b] is given [ceil(b / quantum)] slices. *)
Theorem round_robin_sliced processes quantum :
  valid processes → 0 < quantum →
  ∃ r, rr_returns processes quantum r ∧ sliced quantum processes r.
Proof.
  intros Hv Hq.
  destruct (round_robin_terminates processes quantum) as (fuel & r & Hr); [lia|].
  exists r. split; [by exists fuel|].
  by destruct (round_robin_slices _ _ _ _ Hv Hq Hr) as (? & ? & ?).
Qed.

Lemma round_robin_sliced_example :
  valid example ∧ 0 < 2 ∧
  ∃ r, rr_returns example 2 r ∧ sliced 2 example r.
Proof.
  split; [exact example_valid|]. split; [lia|].
  apply (round_robin_sliced example 2); [exact example_valid|lia].
Defined.

(** ** The metrics are those of the completion times *)

Lemma run_to_completion_completion processes r :
  run_to_completion processes r → completion_time processes r.
Proof.
  intros (done & time & Hsch & Hperm) p Hp.
  rewrite <- Hperm in Hp. apply list_elem_of_fmap in Hp as (d & -> & Hd).
  exists (slot d). unfold intervals_of. rewrite (sch_gantt _ _ _ _ _ Hsch).
  rewrite (slot_filter_unique _ _ (sch_ids _ _ _ _ _ Hsch) Hd).
  split; [done|]. unfold iv_finish, slot. simpl.
  rewrite (sch_turnaround _ _ _ _ _ Hsch) by done.
  rewrite (sch_waiting _ _ _ _ _ Hsch) by done.
  split; f_equal; lia.
Qed.

(** X10: on every valid process list with integer arrivals and bursts
    (and a positive integer quantum for round-robin) the metrics that each
    of the four functions returns agree with the timeline it returns: for
    every process, turnaround equals the finish of its last interval minus
    its arrival, and waiting equals that minus its burst. *)
Theorem metrics_from_completion processes quantum :
  valid processes → 0 < quantum → all_four completion_time processes quantum.
Proof.
  intros Hv Hq. apply all_four_intro; [done|done| |].
  - intros r Hr. by apply run_to_completion_completion.
  - intros fuel r Hr. by destruct (round_robin_slices _ _ _ _ Hv Hq Hr) as (? & ? & ?).
Qed.

Lemma metrics_from_completion_example :
  valid example ∧ 0 < 2 ∧ all_four completion_time example 2.
Proof.
  split; [exact example_valid|]. split; [lia|].
  apply (metrics_from_completion example 2); [exact example_valid|lia].
Defined.

(** ** No idle time while a process is waiting *)

(** The same for a timeline under construction. *)
Definition busy (processes : list process) (gantt : list interval) : Prop :=
  ∀ before iv after, gantt = before ++ iv :: after →
    iv_start iv = last_finish before ∨
    ((∃ p, p ∈ processes ∧ iv_id iv = id p ∧ arrival p = iv_start iv) ∧
     ∀ q, q ∈ processes → arrival q < iv_start iv →
          executed (id q) before = burst q).

Lemma busy_nil processes : busy processes [].
Proof. intros before iv after Heq. by destruct before. Qed.

Lemma busy_snoc processes gantt iv :
  busy processes gantt →
  (iv_start iv = last_finish gantt ∨
   ((∃ p, p ∈ processes ∧ iv_id iv = id p ∧ arrival p = iv_start iv) ∧
    ∀ q, q ∈ processes → arrival q < iv_start iv →
         executed (id q) gantt = burst q)) →
  busy processes (gantt ++ [iv]).
Proof.
  intros Hbusy Hiv before iv' after Heq.
  destruct after as [|x after _] using rev_ind.
  - apply app_inj_tail in Heq as [<- <-]. done.
  - rewrite app_comm_cons, app_assoc in Heq.
    apply app_inj_tail in Heq as [-> _]. by eapply Hbusy.
Qed.

Lemma last_finish_snoc gantt iv : last_finish (gantt ++ [iv]) = iv_finish iv.
Proof. unfold last_finish. by rewrite last_snoc. Qed.

Lemma busy_perm processes processes' gantt :
  processes ≡ₚ processes' → busy processes gantt → busy processes' gantt.
Proof.
  intros Hperm Hbusy before iv after Heq.
  destruct (Hbusy before iv after Heq) as [?|[(p & Hp & ?) Hearlier]]; [by left|right].
  split.
  - exists p. by rewrite <- Hperm.
  - intros q Hq. apply Hearlier. by rewrite Hperm.
Qed.

Lemma scheduled_executed done time gantt waiting turnaround d :
  scheduled done time gantt waiting turnaround → d ∈ done →
  executed (id d.1) gantt = burst d.1.
Proof.
  intros Hsch Hd. unfold executed, intervals_of.
  rewrite (sch_gantt _ _ _ _ _ Hsch).
  rewrite (slot_filter_unique _ _ (sch_ids _ _ _ _ _ Hsch) Hd).
  unfold duration, iv_finish, iv_start, slot. simpl. lia.
Qed.

(** The clock is at the end of the timeline, or nothing is queued and no
    process that is not yet admitted has arrived before the clock. *)
Definition caught_up (time : Z) (gantt : list interval)
    (queue pending : list process) : Prop :=
  time = last_finish gantt ∨
  (queue = [] ∧ Forall (λ p, time ≤ arrival p) pending).

Section busy_loops.
Context (processes : list process).
Hypothesis Hsorted : StronglySorted (λ a b, arrival a ≤ arrival b) processes.
Hypothesis Hids : NoDup (id <$> processes).
Hypothesis Hpos : Forall (λ p, 0 < burst p) processes.

(** What the admission at [time] does to the pending processes. *)
Lemma admission_sorted time i :
  let pending := drop i processes in
  let new := arrived time pending in
  new = filter (λ p, arrival p ≤ time) pending ∧
  drop (i + length new) processes = filter (λ p, time < arrival p) pending ∧
  (∀ p, p ∈ new → p ∈ processes).
Proof.
  intros pending new.
  destruct (arrived_sorted time pending) as [Hnew Hrest];
    [by apply StronglySorted_drop|].
  unfold pending in Hrest. rewrite drop_drop in Hrest.
  split; [done|]. split; [done|].
  intros p Hp. apply (subseteq_drop i processes).
  fold pending. fold new in Hnew. rewrite Hnew in Hp.
  by apply list_elem_of_filter in Hp as [_ ?].
Qed.

Lemma caught_up_tick time gantt i :
  arrived time (drop i processes) = [] →
  caught_up (time + 1) gantt [] (drop i processes).
Proof.
  intros Hnew. right. split; [done|].
  destruct (admission_sorted time i) as (_ & Hrest & _). simpl in Hrest.
  rewrite Hnew in Hrest. simpl in Hrest. rewrite Nat.add_0_r in Hrest.
  rewrite Hrest. apply Forall_forall. intros p [Hlt _]%list_elem_of_filter. lia.
Qed.

(** The interval given to the head [p] of the queue after an admission:
    [finished] are the processes that are in neither the queue nor the
    pending list, all of them executed for their burst. *)
Lemma caught_up_start time gantt queue i finished p rest :
  caught_up time gantt queue (drop i processes) →
  finished ++ queue ++ drop i processes ≡ₚ processes →
  (∀ q, q ∈ finished → executed (id q) gantt = burst q) →
  queue ++ arrived time (drop i processes) = p :: rest →
  time = last_finish gantt ∨
  ((∃ p', p' ∈ processes ∧ id p = id p' ∧ arrival p' = time) ∧
   ∀ q, q ∈ processes → arrival q < time → executed (id q) gantt = burst q).
Proof.
  intros [->|[-> Hpend]] Hperm Hfin Hq; [by left|right]. simpl in *.
  destruct (admission_sorted time i) as (Hnew & _ & Hsub). simpl in *.
  assert (p ∈ arrived time (drop i processes)) as Hp by (rewrite Hq; left).
  split.
  - exists p. split; [by apply Hsub|]. split; [done|].
    rewrite Hnew in Hp. apply list_elem_of_filter in Hp as [Hle Hp].
    eapply Forall_forall in Hpend; [|done]. simpl in *. lia.
  - intros q Hin Hlt. apply Hfin. rewrite <- Hperm in Hin.
    apply elem_of_app in Hin as [?|Hin]; [done|].
    eapply Forall_forall in Hpend; [|done]. simpl in *. lia.
Qed.

Lemma fcfs_fold_busy l : ∀ st done,
  done.*1 ++ l = processes →
  scheduled done (f_time st) (f_gantt st) (f_waiting st) (f_turnaround st) →
  f_time st = last_finish (f_gantt st) →
  busy processes (f_gantt st) →
  busy processes (f_gantt (foldl fcfs_body st l)).
Proof.
  induction l as [|p l IH]; intros st done Hsplit Hsch Htime Hbusy; simpl.
  { exact Hbusy. }
  assert (p ∈ processes) as Hp by (rewrite <- Hsplit; set_solver).
  pose proof (proj1 (Forall_forall _ _) Hpos p Hp) as Hbp. simpl in Hbp.
  apply (IH _ (done ++ [(p, if bool_decide (f_time st < arrival p)
                            then arrival p else f_time st)])).
  - by rewrite fmap_snoc, <- app_assoc.
  - unfold fcfs_body. simpl. eapply scheduled_snoc; [done|..].
    + case_bool_decide; lia.
    + case_bool_decide; lia.
    + lia.
    + case_bool_decide; lia.
    + rewrite <- Hsplit, fmap_app in Hids.
      apply NoDup_app in Hids as (_ & Hnd & _). intros Hin.
      apply (Hnd _ Hin). simpl. left.
  - simpl. by rewrite last_finish_snoc.
  - simpl. apply busy_snoc; [done|]. unfold iv_start, iv_id. simpl.
    case_bool_decide as Hgap; [right|by left]. split; [by exists p|].
    intros q Hq Hlt. rewrite <- Hsplit in Hq, Hsorted.
    apply elem_of_app in Hq as [Hq|Hq].
    + apply list_elem_of_fmap in Hq as (d & -> & Hd).
      by eapply scheduled_executed.
    + apply StronglySorted_app_1_r, StronglySorted_inv in Hsorted as [_ Hall].
      apply elem_of_cons in Hq as [->|Hq]; [lia|].
      eapply Forall_forall in Hall; [|done]. simpl in *. lia.
Qed.

Definition np_busy (st : np_state) : Prop :=
  (∃ done, np_inv processes st done) ∧
  busy processes (n_gantt st) ∧
  caught_up (n_time st) (n_gantt st) (n_ready st) (drop (n_i st) processes).

Lemma np_busy_body key st : np_busy st → np_busy (np_body key processes st).
Proof.
  intros ([done Hinv] & Hbusy & Hcaught).
  split; [by eapply np_inv_body|].
  destruct (np_body_cases key processes st) as [(p & rest & Hs & ->)|(Hr & Hn & ->)].
  - assert (n_ready st ++ arrived (n_time st) (drop (n_i st) processes) ≡ₚ p :: rest)
      as Hpr by (by rewrite <- Hs, sorted_perm).
    simpl. split; [|left; by rewrite last_finish_snoc].
    apply busy_snoc; [done|]. unfold iv_start, iv_id. simpl.
    destruct Hcaught as [->|[Hr Hpend]]; [by left|right].
    assert (p ∈ arrived (n_time st) (drop (n_i st) processes)) as Hp.
    { rewrite Hr in Hpr. simpl in Hpr. rewrite Hpr. left. }
    destruct (admission_sorted (n_time st) (n_i st)) as (Hnew & _ & Hsub).
    simpl in Hnew, Hsub. split.
    + exists p. split; [by apply Hsub|]. split; [done|].
      rewrite Hnew in Hp. apply list_elem_of_filter in Hp as [Hle Hp].
      eapply Forall_forall in Hpend; [|done]. simpl in *. lia.
    + intros q Hq Hlt. rewrite <- (npi_perm _ _ _ Hinv), Hr in Hq. simpl in Hq.
      apply elem_of_app in Hq as [Hq|Hq].
      * apply list_elem_of_fmap in Hq as (d & -> & Hd).
        eapply scheduled_executed; [exact (npi_scheduled _ _ _ Hinv)|done].
      * eapply Forall_forall in Hpend; [|done]. simpl in *. lia.
  - split; [done|]. simpl. by apply caught_up_tick.
Qed.

Lemma np_loop_busy key fuel st :
  np_loop key processes fuel np_init = Done st → busy processes (n_gantt st).
Proof.
  intros Hloop.
  apply (while_invariant _ _ np_busy) in Hloop as [(_ & ? & _) _]; [done| |].
  - intros s1 s2 Hs1 _ [= <-]. by apply np_busy_body.
  - split; [exists []; apply np_inv_init|]. split; [apply busy_nil|by left].
Qed.

Definition rr_busy (st : rr_state) : Prop :=
  rr_invariant processes st ∧
  busy processes (r_gantt st) ∧
  caught_up (r_time st) (r_gantt st) (r_queue st) (drop (r_i st) processes).

Lemma rr_busy_body quantum st st' :
  0 < quantum → rr_busy st → rr_body quantum processes st = Done st' →
  rr_busy st'.
Proof.
  intros Hquantum ([fin Hinv] & Hbusy & Hcaught) Hbody.
  split; [eapply rr_invariant_body; [done..|by exists fin|done]|].
  revert Hbody. rewrite rr_body_phases.
  destruct (r_queue (rr_admission processes st)) as [|p rest] eqn:Hq.
  - intros [= <-]. simpl in Hq. apply app_eq_nil in Hq as [Hq0 Hnew].
    split; [done|]. simpl. rewrite Hq0, Hnew. simpl. rewrite Nat.add_0_r.
    by apply caught_up_tick.
  - destruct (getitem _ _) as [rem| |]; simpl; [|done..]. simpl in Hq.
    assert (busy processes
              (r_gantt st ++ [(id p, r_time st, r_time st + Z.min quantum rem)]))
      as Hbusy'.
    { apply busy_snoc; [done|]. unfold iv_start, iv_id. simpl.
      eapply caught_up_start; [done|exact (rri_perm _ _ _ Hinv)| |done].
      intros q Hin. by destruct (rri_finished _ _ _ Hinv q Hin) as (_ & ? & _). }
    intros [= <-].
    case_bool_decide; (split; [done|left; simpl; by rewrite last_finish_snoc]).
Qed.

Lemma rr_loop_busy quantum fuel st :
  0 < quantum →
  rr_loop quantum processes fuel (rr_init processes) = Done st →
  busy processes (r_gantt st).
Proof.
  intros Hquantum Hloop.
  apply (while_invariant _ _ rr_busy) in Hloop as [(_ & ? & _) _]; [done| |].
  - intros s1 s2 Hs1 _ Hbody. by eapply rr_busy_body.
  - split; [exists []; by apply rr_inv_init|]. split; [apply busy_nil|by left].
Qed.
End busy_loops.

(** X11: on every valid process list with integer fields (and a positive
    integer quantum for round-robin), the timeline each of the four
    functions returns leaves the processor idle only while no process that
    has arrived is unfinished: every interval starts when the interval
    before it finishes (at time 0 for the first one), or else it starts
    exactly at the arrival of its process and every process that arrived
    earlier has already been executed for its whole burst. *)
Theorem no_needless_idle processes quantum :
  valid processes → 0 < quantum → all_four work_conserving processes quantum.
Proof.
  intros Hv Hq.
  pose proof (sorted_sorted arrival processes) as Hsorted.
  pose proof (valid_sorted _ Hv) as (Hids & Hpos & _).
  pose proof (sorted_perm arrival processes) as Hperm.
  split; [|split; [|split]].
  - unfold work_conserving, fcfs. simpl.
    apply (busy_perm (sorted arrival processes)); [done|].
    apply (fcfs_fold_busy _ Hsorted Hids Hpos _ _ []);
      [done|apply scheduled_nil|done|apply busy_nil].
  - destruct (np_schedule_terminates burst processes) as (fuel & r & Hr).
    exists r. split; [by exists fuel|].
    apply np_schedule_inv in Hr as (st & Hloop & ->).
    apply (busy_perm (sorted arrival processes)); [done|].
    by eapply np_loop_busy.
  - destruct (np_schedule_terminates priority processes) as (fuel & r & Hr).
    exists r. split; [by exists fuel|].
    apply np_schedule_inv in Hr as (st & Hloop & ->).
    apply (busy_perm (sorted arrival processes)); [done|].
    by eapply np_loop_busy.
  - destruct (round_robin_terminates processes quantum) as (fuel & r & Hr); [lia|].
    exists r. split; [by exists fuel|].
    apply round_robin_inv in Hr as (st & wt & Hloop & _ & ->).
    apply (busy_perm (sorted arrival processes)); [done|].
    by eapply rr_loop_busy.
Qed.

Lemma no_needless_idle_example :
  valid example ∧ 0 < 2 ∧ all_four work_conserving example 2.
Proof.
  split; [apply example_valid|]. split; [lia|].
  apply (no_needless_idle example 2); [apply example_valid|lia].
Defined.

(** * The [int] embedding inside the [int]-and-[float] one

    On records whose fields are all [int]s the functions of [Numeric] do
    what the functions of the first embedding do, result for result and
    iteration budget for iteration budget. *)

Definition of_process (p : process) : Numeric.process :=
  {| Numeric.id := id p;
     Numeric.arrival := Numeric.Int (arrival p);
     Numeric.burst := Numeric.Int (burst p);
     Numeric.priority := Numeric.Int (priority p) |}.

Definition of_interval (iv : interval) : Numeric.interval :=
  (iv_id iv, Numeric.Int (iv_start iv), Numeric.Int (iv_finish iv)).

Definition of_map (m : gmap string Z) : gmap string Numeric.num :=
  Numeric.Int <$> m.

Definition of_result (r : result) : Numeric.result :=
  (of_interval <$> r.1.1, of_map r.1.2, of_map r.2).

Definition of_outcome {A B} (f : A → B) (o : outcome A) : Numeric.outcome B :=
  match o with
  | Done a => Numeric.Done (f a)
  | KeyError k => Numeric.KeyError k
  | OutOfFuel => Numeric.OutOfFuel
  end.

Section int_keys.
Context (key : process → Z) (key' : Numeric.process → Numeric.num).
Hypothesis Hkey : ∀ p, key' (of_process p) = Numeric.Int (key p).

Lemma numeric_insert_by_int x l :
  Numeric.insert_by key' (of_process x) (of_process <$> l)
  = of_process <$> insert_by key x l.
Proof.
  induction l as [|y l IH]; simpl; [done|].
  rewrite !Hkey. simpl.
  destruct (decide (key x ≤ key y)).
  - rewrite bool_decide_false by lia. by rewrite bool_decide_true by done.
  - rewrite bool_decide_true by lia. rewrite (bool_decide_false (key x ≤ key y)) by done.
    simpl. f_equal. exact IH.
Qed.

Lemma numeric_sorted_int l :
  Numeric.sorted key' (of_process <$> l) = Numeric.Done (of_process <$> sorted key l).
Proof.
  unfold Numeric.sorted.
  assert (existsb (λ x, Numeric.is_nan (key' x)) (of_process <$> l) = false) as ->.
  { induction l as [|x l IH]; [done|].
    rewrite fmap_cons. cbn [existsb]. by rewrite Hkey, IH. }
  rewrite andb_false_r. f_equal.
  induction l as [|x l IH]; [done|].
  rewrite fmap_cons. cbn [foldr]. by rewrite IH, numeric_insert_by_int.
Qed.
End int_keys.

Lemma numeric_admission_int time pending : ∀ i queue,
  Numeric.admission (Numeric.Int time) (of_process <$> pending) i (of_process <$> queue)
  = ((admission time pending i queue).1, of_process <$> (admission time pending i queue).2).
Proof.
  induction pending as [|p pending IH]; intros i queue; simpl; [done|].
  case_bool_decide; [|done].
  by rewrite <- IH, fmap_app.
Qed.

Lemma of_map_insert k v m : of_map (<[k:=v]> m) = <[k:=Numeric.Int v]> (of_map m).
Proof. apply fmap_insert. Qed.

Lemma of_map_empty : of_map ∅ = ∅.
Proof. apply fmap_empty. Qed.

Lemma numeric_getitem_int m k :
  Numeric.getitem (of_map m) k = of_outcome Numeric.Int (getitem m k).
Proof.
  unfold Numeric.getitem, getitem, of_map. rewrite lookup_fmap.
  by destruct (m !! k).
Qed.

Lemma numeric_min_int a b :
  Numeric.min (Numeric.Int a) (Numeric.Int b) = Numeric.Int (Z.min a b).
Proof. unfold Numeric.min. simpl. case_bool_decide; f_equal; lia. Qed.

Lemma numeric_nonempty_int (l : list process) :
  Numeric.nonempty (of_process <$> l) = negb (bool_decide (l = [])).
Proof. by destruct l. Qed.

(** A loop on the image of a state does what the loop on the state does. *)
Lemma numeric_while_int {S S'} (f : S → S') cond cond' body body' :
  (∀ s, cond' (f s) = cond s) →
  (∀ s, body' (f s) = of_outcome f (body s)) →
  ∀ fuel s,
    Numeric.while cond' body' fuel (f s) = of_outcome f (while cond body fuel s).
Proof.
  intros Hc Hb. induction fuel as [|fuel IH]; intros s; simpl; rewrite Hc.
  - by destruct (cond s).
  - destruct (cond s); [|done]. rewrite Hb.
    destruct (body s); simpl; [apply IH|done..].
Qed.

(** ** [fcfs] *)

Definition of_fcfs_state (st : fcfs_state) : Numeric.fcfs_state :=
  {| Numeric.f_time := Numeric.Int (f_time st);
     Numeric.f_gantt := of_interval <$> f_gantt st;
     Numeric.f_waiting := of_map (f_waiting st);
     Numeric.f_turnaround := of_map (f_turnaround st) |}.

Lemma numeric_fcfs_body_int st p :
  Numeric.fcfs_body (Numeric.Done (of_fcfs_state st)) (of_process p)
  = Numeric.Done (of_fcfs_state (fcfs_body st p)).
Proof.
  unfold Numeric.fcfs_body, fcfs_body, of_fcfs_state. simpl.
  case_bool_decide; simpl; by rewrite fmap_app, !of_map_insert.
Qed.

Lemma numeric_fcfs_fold_int l : ∀ st,
  foldl Numeric.fcfs_body (Numeric.Done (of_fcfs_state st)) (of_process <$> l)
  = Numeric.Done (of_fcfs_state (foldl fcfs_body st l)).
Proof.
  induction l as [|p l IH]; intros st; [done|].
  rewrite fmap_cons. cbn [foldl]. rewrite numeric_fcfs_body_int. apply IH.
Qed.

Lemma numeric_fcfs_int processes :
  Numeric.fcfs (of_process <$> processes) = Numeric.Done (of_result (fcfs processes)).
Proof.
  unfold Numeric.fcfs. rewrite (numeric_sorted_int arrival) by done.
  cbn [Numeric.bind].
  assert (Numeric.fcfs_init = of_fcfs_state fcfs_init) as ->.
  { unfold of_fcfs_state. simpl. by rewrite of_map_empty. }
  by rewrite numeric_fcfs_fold_int.
Qed.

(** ** [sjf] and [priority_scheduling] *)

Definition of_np_state (st : np_state) : Numeric.np_state :=
  {| Numeric.n_i := n_i st;
     Numeric.n_ready := of_process <$> n_ready st;
     Numeric.n_time := Numeric.Int (n_time st);
     Numeric.n_gantt := of_interval <$> n_gantt st;
     Numeric.n_waiting := of_map (n_waiting st);
     Numeric.n_turnaround := of_map (n_turnaround st) |}.

Section np_int.
Context (key : process → Z) (key' : Numeric.process → Numeric.num).
Hypothesis Hkey : ∀ p, key' (of_process p) = Numeric.Int (key p).

Lemma numeric_np_cond_int processes st :
  Numeric.np_cond (of_process <$> processes) (of_np_state st) = np_cond processes st.
Proof.
  unfold Numeric.np_cond, np_cond. simpl.
  by rewrite length_fmap, numeric_nonempty_int.
Qed.

Lemma numeric_np_body_int processes st :
  Numeric.np_body key' (of_process <$> processes) (of_np_state st)
  = Numeric.Done (of_np_state (np_body key processes st)).
Proof.
  unfold Numeric.np_body, np_body. simpl.
  rewrite <- fmap_drop, numeric_admission_int.
  destruct (admission _ _ _ _) as [i ready]. simpl.
  rewrite (numeric_sorted_int key) by done. cbn [Numeric.bind].
  destruct (sorted key ready) as [|p rest] eqn:Hs; simpl.
  - pose proof (sorted_perm key ready) as Hp. rewrite Hs in Hp.
    apply Permutation_nil_l in Hp. subst ready. done.
  - unfold of_np_state. simpl. by rewrite fmap_app, !of_map_insert.
Qed.

Lemma numeric_np_schedule_int fuel processes :
  Numeric.np_schedule key' fuel (of_process <$> processes)
  = of_outcome of_result (np_schedule key fuel processes).
Proof.
  unfold Numeric.np_schedule, np_schedule, np_loop.
  rewrite (numeric_sorted_int arrival) by done. cbn [Numeric.bind].
  assert (Numeric.np_init = of_np_state np_init) as ->.
  { unfold of_np_state. simpl. by rewrite of_map_empty. }
  rewrite (numeric_while_int of_np_state
             (np_cond (sorted arrival processes))
             _ (λ st, Done (np_body key (sorted arrival processes) st))).
  - by destruct (while _ _ _ _).
  - apply numeric_np_cond_int.
  - intros s. simpl. apply numeric_np_body_int.
Qed.
End np_int.

Lemma numeric_sjf_int fuel processes :
  Numeric.sjf fuel (of_process <$> processes)
  = of_outcome of_result (sjf fuel processes).
Proof. by apply numeric_np_schedule_int. Qed.

Lemma numeric_priority_scheduling_int fuel processes :
  Numeric.priority_scheduling fuel (of_process <$> processes)
  = of_outcome of_result (priority_scheduling fuel processes).
Proof. by apply numeric_np_schedule_int. Qed.

(** ** [round_robin] *)

Definition of_rr_state (st : rr_state) : Numeric.rr_state :=
  {| Numeric.r_i := r_i st;
     Numeric.r_queue := of_process <$> r_queue st;
     Numeric.r_time := Numeric.Int (r_time st);
     Numeric.r_remaining := of_map (r_remaining st);
     Numeric.r_finish_time := of_map (r_finish_time st);
     Numeric.r_gantt := of_interval <$> r_gantt st |}.

Lemma numeric_remaining_init_int processes :
  Numeric.remaining_init (of_process <$> processes) = of_map (remaining_init processes).
Proof.
  unfold Numeric.remaining_init, remaining_init.
  rewrite <- of_map_empty. generalize (∅ : gmap string Z).
  induction processes as [|p l IH]; intros m; [done|].
  rewrite fmap_cons. cbn [foldl of_process Numeric.id Numeric.burst].
  rewrite <- of_map_insert. apply IH.
Qed.

Lemma numeric_rr_cond_int processes st :
  Numeric.rr_cond (of_process <$> processes) (of_rr_state st) = rr_cond processes st.
Proof.
  unfold Numeric.rr_cond, rr_cond. simpl.
  by rewrite length_fmap, numeric_nonempty_int.
Qed.

Lemma numeric_rr_body_int quantum processes st :
  Numeric.rr_body (Numeric.Int quantum) (of_process <$> processes) (of_rr_state st)
  = of_outcome of_rr_state (rr_body quantum processes st).
Proof.
  unfold Numeric.rr_body, rr_body. simpl.
  rewrite <- fmap_drop, numeric_admission_int.
  destruct (admission _ _ _ _) as [i queue]. simpl.
  destruct queue as [|p queue]; simpl; [done|].
  rewrite numeric_getitem_int.
  destruct (getitem _ _) as [rem| |]; simpl; [|done..].
  rewrite numeric_min_int. simpl.
  destruct (decide (rem - Z.min quantum rem > 0)).
  - rewrite bool_decide_true by lia. rewrite bool_decide_true by done.
    rewrite <- fmap_drop, numeric_admission_int.
    destruct (admission _ _ _ _) as [i' queue']. simpl.
    unfold of_rr_state. simpl. by rewrite !fmap_app, of_map_insert.
  - rewrite bool_decide_false by lia. rewrite bool_decide_false by done.
    unfold of_rr_state. simpl. by rewrite !fmap_app, !of_map_insert.
Qed.

Lemma numeric_rr_metrics_int finish_time l : ∀ acc,
  foldl (Numeric.rr_metrics_body (of_map finish_time))
    (of_outcome (λ wt, (of_map wt.1, of_map wt.2)) acc) (of_process <$> l)
  = of_outcome (λ wt, (of_map wt.1, of_map wt.2))
      (foldl (rr_metrics_body finish_time) acc l).
Proof.
  induction l as [|p l IH]; intros acc; [done|].
  rewrite fmap_cons. cbn [foldl]. rewrite <- IH. f_equal.
  unfold Numeric.rr_metrics_body, rr_metrics_body.
  destruct acc as [wt| |]; simpl; [|done..].
  rewrite numeric_getitem_int.
  destruct (getitem _ _) as [ft| |]; simpl; [|done..].
  by rewrite !of_map_insert.
Qed.

Lemma numeric_round_robin_int fuel processes quantum :
  Numeric.round_robin fuel (of_process <$> processes) (Numeric.Int quantum)
  = of_outcome of_result (round_robin fuel processes quantum).
Proof.
  unfold Numeric.round_robin, round_robin, rr_loop, rr_metrics.
  rewrite (numeric_sorted_int arrival) by done. cbn [Numeric.bind].
  assert (Numeric.rr_init (of_process <$> sorted arrival processes)
          = of_rr_state (rr_init (sorted arrival processes))) as ->.
  { unfold of_rr_state, Numeric.rr_init. simpl.
    by rewrite numeric_remaining_init_int, of_map_empty. }
  rewrite (numeric_while_int of_rr_state
             (rr_cond (sorted arrival processes))
             _ (rr_body quantum (sorted arrival processes))).
  - destruct (while _ _ _ _) as [st| |]; simpl; [|done..].
    pose proof (numeric_rr_metrics_int (r_finish_time st)
                  (sorted arrival processes) (Done (∅, ∅))) as Hm.
    simpl in Hm. rewrite of_map_empty in Hm. rewrite Hm.
    by destruct (foldl (rr_metrics_body _) _ _) as [wt| |].
  - apply numeric_rr_cond_int.
  - apply numeric_rr_body_int.
Qed.

(** * What does not carry over to [float] fields *)

(** The arithmetic at work: [2**53 + 1] is not a float and converts to
    [2.0**53], yet it compares as larger than [2.0**53]; an [int] beyond
    the largest float does not convert. *)
Lemma numeric_arithmetic_examples :
  Numeric.float_of_int (2 ^ 53 + 1) = Numeric.Done 9007199254740992%float ∧
  Numeric.lt (Numeric.Float 9007199254740992) (Numeric.Int (2 ^ 53 + 1)) = true ∧
  Numeric.le (Numeric.Int (2 ^ 53 + 1)) (Numeric.Float 9007199254740992) = false ∧
  Numeric.add (Numeric.Int 0) (Numeric.Float 0.1) = Numeric.Done (Numeric.Float 0.1) ∧
  Numeric.add (Numeric.Float 0.1) (Numeric.Float 0.2)
    = Numeric.Done (Numeric.Float 0.30000000000000004) ∧
  Numeric.min (Numeric.Int 1) (Numeric.Float 0.5) = Numeric.Float 0.5 ∧
  Numeric.float_of_int (2 ^ 1024) = Numeric.OverflowError.
Proof. repeat split; vm_compute; reflexivity. Qed.

Lemma numeric_while_step {S} (cond : S → bool) (body : S → Numeric.outcome S)
    fuel s s' :
  cond s = true → body s = Numeric.Done s' →
  Numeric.while cond body (Datatypes.S fuel) s = Numeric.while cond body fuel s'.
Proof. intros Hc Hb. simpl. by rewrite Hc, Hb. Qed.

(** A loop whose body leaves the state as it is runs out of every budget. *)
Lemma numeric_while_stuck {S} (cond : S → bool) (body : S → Numeric.outcome S)
    fuel s :
  cond s = true → body s = Numeric.Done s →
  Numeric.while cond body fuel s = Numeric.OutOfFuel.
Proof.
  intros Hc Hb. induction fuel as [|fuel IH]; simpl; rewrite Hc; [done|].
  by rewrite Hb.
Qed.

Lemma stalling_example_valid :
  Numeric.valid Numeric.stalling_example ∧
  Forall (λ p, Numeric.integer (Numeric.arrival p)) Numeric.stalling_example.
Proof.
  split; [split; [|split]|].
  - apply (bool_decide_unpack _). vm_compute. exact I.
  - repeat (constructor; [vm_compute; reflexivity|]). constructor.
  - repeat (constructor; [vm_compute; reflexivity|]). constructor.
  - repeat (constructor; [exact I|]). constructor.
Qed.

Lemma sjf_stalls fuel :
  Numeric.sjf fuel Numeric.stalling_example = Numeric.OutOfFuel.
Proof.
  unfold Numeric.sjf, Numeric.np_schedule.
  assert (Numeric.sorted Numeric.arrival Numeric.stalling_example
          = Numeric.Done Numeric.stalling_example) as -> by (vm_compute; reflexivity).
  cbn [Numeric.bind].
  destruct fuel as [|fuel]; [vm_compute; reflexivity|].
  rewrite (numeric_while_step _ _ _ _ Numeric.stalled_state);
    [|vm_compute; reflexivity..].
  rewrite numeric_while_stuck; [done|vm_compute; reflexivity..].
Qed.

(** C4 (as stated) fails: the list below is valid and its arrivals are
    integers, but [A] has the burst [2.0**53] and [B] arrives at
    [2**53 + 2].  After [A] is run the clock is the float [2.0**53]; [B]
    has not arrived, the idle tick [time += 1] rounds back to [2.0**53],
    and so on for ever: [sjf] runs out of every iteration budget. *)
Lemma sjf_float_clock_stalls :
  Numeric.valid Numeric.stalling_example ∧
  Forall (λ p, Numeric.integer (Numeric.arrival p)) Numeric.stalling_example ∧
  Numeric.add (Numeric.Float 9007199254740992) (Numeric.Int 1)
    = Numeric.Done (Numeric.Float 9007199254740992) ∧
  ¬ (∃ fuel, Numeric.sjf fuel Numeric.stalling_example ≠ Numeric.OutOfFuel).
Proof.
  destruct stalling_example_valid as [Hv Hi].
  split; [done|]. split; [done|]. split; [vm_compute; reflexivity|].
  intros [fuel Hne]. apply Hne, sjf_stalls.
Qed.

Lemma rounding_example_valid : Numeric.valid Numeric.rounding_example.
Proof.
  split; [|split].
  - apply (bool_decide_unpack _). vm_compute. exact I.
  - repeat (constructor; [vm_compute; reflexivity|]). constructor.
  - repeat (constructor; [vm_compute; reflexivity|]). constructor.
Qed.

(** C5 (as stated) fails: with the bursts [0.1] and [0.2], both arriving at
    0, [fcfs] runs [B] from [0.1] to [0.1 + 0.2 = 0.30000000000000004]; the
    duration of that interval, its only one, is [0.20000000000000004], more
    than its burst [0.2]. *)
Lemma fcfs_float_duration_not_burst :
  Numeric.valid Numeric.rounding_example ∧
  Numeric.fcfs Numeric.rounding_example = Numeric.Done Numeric.rounding_fcfs ∧
  Numeric.duration ("B", Numeric.Float 0.1, Numeric.Float 0.30000000000000004)
    = Numeric.Done (Numeric.Float 0.20000000000000004) ∧
  Numeric.lt (Numeric.Float 0.2) (Numeric.Float 0.20000000000000004) = true.
Proof.
  split; [exact rounding_example_valid|].
  split; [vm_compute; reflexivity|]. split; vm_compute; reflexivity.
Qed.

Lemma handover_example_valid :
  Numeric.valid Numeric.handover_example ∧ Numeric.valid Numeric.queued_example.
Proof.
  split; (split; [|split]).
  - apply (bool_decide_unpack _). vm_compute. exact I.
  - repeat (constructor; [vm_compute; reflexivity|]). constructor.
  - repeat (constructor; [vm_compute; reflexivity|]). constructor.
  - apply (bool_decide_unpack _). vm_compute. exact I.
  - repeat (constructor; [vm_compute; reflexivity|]). constructor.
  - repeat (constructor; [vm_compute; reflexivity|]). constructor.
Qed.

(** C9 (as stated) fails.  With [A] arriving at 0 with burst [0.7] and [B]
    arriving at [0.7] with burst [0.2], [round_robin] with quantum 1 gives
    [B] the turnaround [0.8999999999999999 - 0.7 = 0.19999999999999996]
    and the waiting time [0.19999999999999996 - 0.2], which is negative.
    With [B] arriving at [0.1] instead, [fcfs] gives [B] the waiting time
    [0.6] and the turnaround [0.7999999999999999], which is less than
    [0.6 + 0.2 = 0.8]. *)
Lemma float_metrics_inconsistent :
  Numeric.valid Numeric.handover_example ∧
  Numeric.round_robin 2 Numeric.handover_example (Numeric.Int 1)
    = Numeric.Done Numeric.handover_rr ∧
  Numeric.handover_rr.1.2 !! "B" = Some (Numeric.Float (-0x1p-54)) ∧
  Numeric.lt (Numeric.Float (-0x1p-54)) (Numeric.Int 0) = true ∧
  Numeric.valid Numeric.queued_example ∧
  Numeric.fcfs Numeric.queued_example = Numeric.Done Numeric.queued_fcfs ∧
  Numeric.queued_fcfs.1.2 !! "B" = Some (Numeric.Float 0.6) ∧
  Numeric.queued_fcfs.2 !! "B" = Some (Numeric.Float 0.7999999999999999) ∧
  Numeric.add (Numeric.Float 0.6) (Numeric.Float 0.2)
    = Numeric.Done (Numeric.Float 0.8) ∧
  Numeric.lt (Numeric.Float 0.7999999999999999) (Numeric.Float 0.8) = true.
Proof.
  destruct handover_example_valid as [Hv1 Hv2].
  split; [done|]. split; [vm_compute; reflexivity|].
  split; [vm_compute; reflexivity|]. split; [vm_compute; reflexivity|].
  split; [done|]. split; [vm_compute; reflexivity|].
  split; [vm_compute; reflexivity|]. split; [vm_compute; reflexivity|].
  split; vm_compute; reflexivity.
Qed.

Lemma half_burst_example_valid :
  Numeric.valid Numeric.half_burst_example ∧
  Forall (λ p, Numeric.integer (Numeric.arrival p)) Numeric.half_burst_example ∧
  Forall (λ p, Numeric.le (Numeric.burst p) (Numeric.Int 1) = true)
    Numeric.half_burst_example.
Proof.
  split; [split; [|split]|split].
  - apply (bool_decide_unpack _). vm_compute. exact I.
  - repeat (constructor; [vm_compute; reflexivity|]). constructor.
  - repeat (constructor; [vm_compute; reflexivity|]). constructor.
  - repeat (constructor; [exact I|]). constructor.
  - repeat (constructor; [vm_compute; reflexivity|]). constructor.
Qed.

(** C10 (as stated) fails: the list is valid and not empty, its arrivals
    are the integers 0 and 1, and the quantum 1 is at least every burst
    ([0.5] and 1).  [fcfs] moves the clock from [0.5] to the arrival of
    [B] and runs it on [1, 2); [round_robin] ticks from [0.5] to [1.5] and
    runs it on [1.5, 2.5). *)
Lemma float_large_quantum_not_fcfs :
  Numeric.valid Numeric.half_burst_example ∧
  Forall (λ p, Numeric.integer (Numeric.arrival p)) Numeric.half_burst_example ∧
  Forall (λ p, Numeric.le (Numeric.burst p) (Numeric.Int 1) = true)
    Numeric.half_burst_example ∧
  Numeric.fcfs Numeric.half_burst_example = Numeric.Done Numeric.half_burst_fcfs ∧
  Numeric.round_robin 3 Numeric.half_burst_example (Numeric.Int 1)
    = Numeric.Done Numeric.half_burst_rr ∧
  Numeric.half_burst_fcfs.1.1 ≠ Numeric.half_burst_rr.1.1.
Proof.
  destruct half_burst_example_valid as (Hv & Hi & Hq).
  split; [done|]. split; [done|]. split; [done|].
  split; [vm_compute; reflexivity|]. split; [vm_compute; reflexivity|].
  unfold Numeric.half_burst_fcfs, Numeric.half_burst_rr. simpl. intros [=].
Qed.

(** An arrival between two ticks: the process arrives at [0.5] and [sjf],
    whose clock ticks from 0 to 1, starts it at 1. *)
Lemma sjf_fractional_arrival_waits :
  Numeric.sjf 2 Numeric.half_arrival_example = Numeric.Done Numeric.half_arrival_sjf.
Proof. vm_compute. reflexivity. Qed.
